(** * Lead-discovery pipeline: a shallow embedding and its properties

    The development embeds the two variants of the lead generator,
    [LeadGeneration/lead_generation.py] (class [LeadGenerator], module
    [Base] below) and [LeadGeneration/lead_generation_with_agent.py]
    (class [GlobalLeadGenerator], module [Agent] below).

    - Python strings are [string]s; only the ASCII range is given a case
      mapping and a whitespace class.
    - Python [set]s of strings are [gset string]; a Python [dict] with
      string keys is a [gmap string _].
    - A method that mutates [self.processed_urls] is a state transformer
      that may raise: the monad [M] below.
    - Everything that lives outside the process (HTTP servers, the HTML
      parser's view of a page, the search API, the language model) is a
      field of the record [env]. *)

From Stdlib Require Import ZArith Lia Ascii String.
From stdpp Require Import base list strings gmap sets sorting.

Local Open Scope string_scope.
Local Open Scope list_scope.

(** ** Python primitives used by the source *)

Module Py.

(** [str.lower] on the ASCII range. *)
Definition is_upper (c : ascii) : bool :=
  let n := nat_of_ascii c in Nat.leb 65 n && Nat.leb n 90.

Definition lower_char (c : ascii) : ascii :=
  if is_upper c then ascii_of_nat (nat_of_ascii c + 32) else c.

Fixpoint lower (s : string) : string :=
  match s with
  | EmptyString => EmptyString
  | String c s' => String (lower_char c) (lower s')
  end.

(** [s.replace(old, new)] for a one-character [old], the only form the
    source uses. *)
Fixpoint replace (old : ascii) (new : string) (s : string) : string :=
  match s with
  | EmptyString => EmptyString
  | String c s' =>
      if Ascii.eqb c old then new +:+ replace old new s'
      else String c (replace old new s')
  end.

(** Characters on which [str.split()] (no argument) splits. *)
Definition is_space (c : ascii) : bool :=
  let n := nat_of_ascii c in
  (Nat.leb 9 n && Nat.leb n 13) || (Nat.leb 28 n && Nat.leb n 32).

Definition cons_word (w : string) (ws : list string) : list string :=
  match w with EmptyString => ws | _ => w :: ws end.

(** [split_aux s] is the word that starts at the head of [s] (empty when
    [s] starts with a blank) and the words after it. *)
Fixpoint split_aux (s : string) : string * list string :=
  match s with
  | EmptyString => (EmptyString, [])
  | String c s' =>
      let '(w, ws) := split_aux s' in
      if is_space c then (EmptyString, cons_word w ws) else (String c w, ws)
  end.

(** [s.split()] *)
Definition split (s : string) : list string :=
  let '(w, ws) := split_aux s in cons_word w ws.

(** [sep.join(l)] *)
Fixpoint join (sep : string) (l : list string) : string :=
  match l with
  | [] => EmptyString
  | [x] => x
  | x :: rest => x +:+ sep +:+ join sep rest
  end.

(** [s.startswith(p)] *)
Fixpoint startswith (p s : string) : bool :=
  match p, s with
  | EmptyString, _ => true
  | String _ _, EmptyString => false
  | String a p', String b s' => Ascii.eqb a b && startswith p' s'
  end.

(** [p in s] *)
Fixpoint contains (p s : string) : bool :=
  startswith p s ||
  match s with
  | EmptyString => false
  | String _ s' => contains p s'
  end.

(** [s[n:]] for [n >= 0] *)
Fixpoint drop_str (n : nat) (s : string) : string :=
  match n, s with
  | O, _ => s
  | S _, EmptyString => EmptyString
  | S n', String _ s' => drop_str n' s'
  end.

(** [s.split(sep)[0]] for a non-empty [sep] *)
Fixpoint before_first (sep s : string) : string :=
  if startswith sep s then EmptyString
  else match s with
       | EmptyString => EmptyString
       | String c s' => String c (before_first sep s')
       end.

(** The text after the first occurrence of a non-empty [sep], when there
    is one. *)
Fixpoint after_first (sep s : string) : option string :=
  if startswith sep s then Some (drop_str (String.length sep) s)
  else match s with
       | EmptyString => None
       | String _ s' => after_first sep s'
       end.

(** [s.split(sep)[1]]: [None] stands for the [IndexError] of a string
    without [sep]. *)
Definition split_nth1 (sep s : string) : option string :=
  before_first sep <$> after_first sep s.

(** [l[:n]] for a Python integer [n]: a negative [n] counts from the
    end. *)
Definition slice_to {A} (n : Z) (l : list A) : list A :=
  if (0 <=? n)%Z then take (Z.to_nat n) l
  else take (length l - Z.to_nat (- n)) l.

(** Truth value of an expression that is [None] or a string. *)
Definition truthy (o : option string) : bool :=
  match o with
  | Some (String _ _) => true
  | _ => false
  end.

(** *** The fragment of [re] the source needs

    Both e-mail patterns are a sequence of word boundaries and of greedy
    repetitions of a character class. *)
Inductive re_item :=
| Boundary
| Class (p : ascii → bool) (lo : nat) (hi : option nat).

Definition regex := list re_item.

Definition in_range (lo hi : nat) (c : ascii) : bool :=
  let n := nat_of_ascii c in Nat.leb lo n && Nat.leb n hi.

Definition is_alpha (c : ascii) : bool := in_range 65 90 c || in_range 97 122 c.
Definition is_digit (c : ascii) : bool := in_range 48 57 c.

(** [\w] on the ASCII range *)
Definition is_word (c : ascii) : bool :=
  is_alpha c || is_digit c || Ascii.eqb c "_".

(** [\b] between the character before the position and the text at it *)
Definition boundary (prev : option ascii) (s : string) : bool :=
  xorb (from_option is_word false prev)
       (match s with String c _ => is_word c | EmptyString => false end).

(** Greedy [p{lo,hi}] followed by the continuation [k]: take as many
    characters as allowed, and give one back at a time until [k]
    accepts.  [n] characters have been taken so far.  The result is the
    text left after the whole match. *)
Fixpoint rep (p : ascii → bool) (lo : nat) (hi : option nat)
    (k : option ascii → string → option string)
    (n : nat) (prev : option ascii) (s : string) : option string :=
  let stop := if Nat.leb lo n then k prev s else None in
  match s with
  | EmptyString => stop
  | String c s' =>
      if p c && match hi with Some h => Nat.ltb n h | None => true end
      then match rep p lo hi k (S n) (Some c) s' with
           | Some rest => Some rest
           | None => stop
           end
      else stop
  end.

(** A match of [r] that starts at the head of [s]. *)
Fixpoint match_here (r : regex) (prev : option ascii) (s : string)
    : option string :=
  match r with
  | [] => Some s
  | Boundary :: r' => if boundary prev s then match_here r' prev s else None
  | Class p lo hi :: r' => rep p lo hi (match_here r') 0 prev s
  end.

(** [re.match(r, s)] as a truth value *)
Definition re_match (r : regex) (s : string) : bool :=
  bool_decide (is_Some (match_here r None s)).

Fixpoint take_str (n : nat) (s : string) : string :=
  match n, s with
  | S n', String c s' => String c (take_str n' s')
  | _, _ => EmptyString
  end.

Fixpoint last_char (prev : option ascii) (s : string) : option ascii :=
  match s with
  | EmptyString => prev
  | String c s' => last_char (Some c) s'
  end.

(** The scan of [re.findall]: leftmost match, then on from its end. *)
Fixpoint findall_from (r : regex) (fuel : nat) (prev : option ascii)
    (s : string) : list string :=
  match fuel with
  | O => []
  | S fuel' =>
      let step :=
        match s with
        | EmptyString => []
        | String c s' => findall_from r fuel' (Some c) s'
        end in
      match match_here r prev s with
      | None => step
      | Some rest =>
          let n := String.length s - String.length rest in
          let m := take_str n s in
          match n with
          | O => m :: step
          | S _ => m :: findall_from r fuel' (last_char prev m) rest
          end
      end
  end.

(** [re.findall(r, s)] for a pattern without groups *)
Definition findall (r : regex) (s : string) : list string :=
  findall_from r (S (String.length s)) None s.

End Py.

(** ** Exceptions, documents and collaborators *)

(** An instance of Python's [Exception]: what [requests], the HTML parser,
    the search tool and the language-model chain raise. *)
Inductive exn := Exception (msg : string).

Inductive outcome (A : Type) :=
| Returned (a : A)
| Raised (e : exn).
Arguments Returned {A} a.
Arguments Raised {A} e.

(** What [requests.head(url, allow_redirects=True, timeout=5)] comes to: an
    exception, or the status code of the last response of the redirect
    chain. *)
Inductive head_result :=
| HeadRaised (e : exn)
| HeadStatus (code : Z).

(** An [<a href=...>] element: [link.get_text()] and [link['href']]. *)
Record link := Link { link_text : string; href : string }.

(** What the source reads from a parsed document.  [links] is taken from
    the document as parsed; the other four views are taken after the
    [script], [style], [noscript], [footer] and [header] elements have been
    decomposed. *)
Record page := Page {
  links : list link;           (* soup.find_all('a', href=True) *)
  get_text : string;           (* soup.get_text() *)
  mailto_hrefs : list string;  (* href of soup.select('a[href^="mailto:"]') *)
  form_texts : list string;    (* get_text() of soup.select('form') *)
  hinted_texts : list string   (* get_text() of soup.select('.email, [class*="contact"], [id*="contact"], .team-member') *)
}.

(** A decoded JSON document, as the language-model chain returns it. *)
#[warnings="-register-all"]
Inductive json :=
| JNull
| JBool (b : bool)
| JNum (n : Z)
| JStr (s : string)
| JArr (items : list json)
| JObj (fields : list (string * json)).

(** One result of the search tool: a dictionary that may have the keys
    ['url'] and ['content']. *)
Record search_result := SearchResult {
  result_url : option string;
  result_content : option string
}.

(** The world outside the process. *)
Record env := Env {
  (** [requests.head]: the answer may depend on the HEAD requests made
      before *)
  requests_head : list string → string → head_result;
  (** [self.session.get(url)] followed by [BeautifulSoup(response.text)] *)
  session_get : string → outcome page;
  (** [urllib.parse.urljoin] *)
  urljoin : string → string → string;
  (** [urlparse(url).netloc] *)
  netloc : string → string;
  (** the order in which a [for] loop or [list()] goes through a set *)
  set_iter : gset string → list string;
  (** [self.search_tool.invoke], by query *)
  search_tool : string → outcome (list search_result);
  (** the chain of [ai_enhance_company_info], by company and service *)
  insight_chain : string → string → outcome (gmap string json);
  (** [datetime.now().strftime('%Y-%m-%d %H:%M')] *)
  now : string
}.

(** Python leaves the iteration order of a set open; it is some listing of
    the set's elements, each once. *)
Definition set_iter_ok (E : env) : Prop :=
  ∀ X : gset string, set_iter E X ≡ₚ elements X.

(** ** The state of a generator instance *)

(** [self.processed_urls] (the probe cache), and the HEAD requests that
    have left the process so far, oldest first.  The second field is not
    in the source: it is the network's side of the story. *)
Record state := State {
  processed_urls : gset string;
  head_requests : list string
}.

(** [__init__]: [self.processed_urls = set()] *)
Definition fresh : state := State ∅ [].

(** A method body: it may change the state and either returns or raises;
    the changes made before a [raise] stay. *)
Definition M (A : Type) : Type := state → outcome A * state.

#[global] Instance M_ret : MRet M := λ A a st, (Returned a, st).
#[global] Instance M_bind : MBind M := λ A B f m st,
  match m st with
  | (Returned a, st') => f a st'
  | (Raised e, st') => (Raised e, st')
  end.

Definition raise {A} (e : exn) : M A := λ st, (Raised e, st).

(** [try: body  except ...: handler], the handler catching every
    [Exception]. *)
Definition try_except {A} (body : M A) (handler : exn → M A) : M A := λ st,
  match body st with
  | (Raised e, st') => handler e st'
  | r => r
  end.

(** A call that leaves the state alone and may raise. *)
Definition lift {A} (o : outcome A) : M A := λ st, (o, st).

(** The same for code that has no state at all. *)
Definition catch {A} (body : outcome A) (handler : exn → outcome A) : outcome A :=
  match body with
  | Raised e => handler e
  | r => r
  end.

#[global] Instance outcome_ret : MRet outcome := λ A a, Returned a.
#[global] Instance outcome_bind : MBind outcome := λ A B f o,
  match o with
  | Returned a => f a
  | Raised e => Raised e
  end.

(** ** The URL prober, the same text in both variants *)

Section Prober.

Variable E : env.

(** The block under [with self.lock]: [false] is the early
    [return False] of a cache hit, [true] lets the caller go on. *)
Definition lock_block (url : string) : M bool := λ st,
  if decide (url ∈ processed_urls st) then (Returned false, st)
  else (Returned true,
        State ({[url]} ∪ processed_urls st) (head_requests st)).

(** [requests.head(...)], giving [response.status_code].  A failure while
    the arguments are built (the random user agent) is counted as a
    request that raised. *)
Definition head_call (url : string) : M Z := λ st,
  let st' := State (processed_urls st) (head_requests st ++ [url]) in
  match requests_head E (head_requests st) url with
  | HeadRaised e => (Raised e, st')
  | HeadStatus code => (Returned code, st')
  end.

Definition check_url_exists (url : string) : M bool :=
  try_except
    (go_on ← lock_block url;
     if go_on : bool then
       code ← head_call url;
       mret (code =? 200)%Z
     else mret false)
    (λ _, mret false).

(** A sequence of probe calls, one after the other on the same
    instance. *)
Fixpoint probe_all (urls : list string) : M (list bool) :=
  match urls with
  | [] => mret []
  | url :: rest =>
      b ← check_url_exists url;
      bs ← probe_all rest;
      mret (b :: bs)
  end.

(** [for url in urls: if self.check_url_exists(url): return url] *)
Fixpoint probe_first (urls : list string) : M (option string) :=
  match urls with
  | [] => mret None
  | url :: rest =>
      ok ← check_url_exists url;
      if ok : bool then mret (Some url) else probe_first rest
  end.

End Prober.

(** ** Probes made by several workers

    The thread pool of the base variant runs several assembly tasks at
    once on one instance.  A call of [check_url_exists] is then two steps,
    the block under the lock and the HEAD request outside it, and the
    steps of different workers interleave in any order. *)

(** A worker and the probes it still has to make: between calls, or out
    of the locked block with its request for [url] not yet sent. *)
Inductive worker :=
| Idle (todo : list string)
| Requesting (url : string) (todo : list string).

(** The URL that a worker has recorded and not yet requested. *)
Definition pending (w : worker) : list string :=
  match w with
  | Idle _ => []
  | Requesting url _ => [url]
  end.

Inductive step (E : env) : state * list worker → state * list worker → Prop :=
| step_lock st ws1 ws2 url todo :
    step E (st, ws1 ++ Idle (url :: todo) :: ws2)
           (match lock_block url st with
            | (Returned true, st') => (st', ws1 ++ Requesting url todo :: ws2)
            | (_, st') => (st', ws1 ++ Idle todo :: ws2)
            end)
| step_head st ws1 ws2 url todo :
    step E (st, ws1 ++ Requesting url todo :: ws2)
           ((head_call E url st).2, ws1 ++ Idle todo :: ws2).

(** ** What the two variants share *)

(** The character classes of the e-mail patterns. *)
Definition one_of (chars : string) (c : ascii) : bool :=
  existsb (Ascii.eqb c) (list_ascii_of_string chars).

Definition local_char (c : ascii) : bool :=
  Py.is_alpha c || Py.is_digit c || one_of "._%+-" c.
Definition domain_char (c : ascii) : bool :=
  Py.is_alpha c || Py.is_digit c || one_of ".-" c.
Definition tld_char (c : ascii) : bool :=
  Py.is_alpha c || one_of "|" c.

(** [\b[A-Za-z0-9._%+-]+@[A-Za-z0-9.-]+\.[A-Z|a-z]{2,hi}\b] *)
Definition email_pattern (hi : option nat) : Py.regex :=
  [ Py.Boundary;
    Py.Class local_char 1 None;
    Py.Class (one_of "@") 1 (Some 1);
    Py.Class domain_char 1 None;
    Py.Class (one_of ".") 1 (Some 1);
    Py.Class tld_char 2 hi;
    Py.Boundary ].

(** [word[0]] of a word of [split()], which is never empty. *)
Definition first_letter (word : string) : string :=
  match word with
  | EmptyString => EmptyString
  | String c _ => String c EmptyString
  end.

(** [link['href'][7:].split('?')[0]] *)
Definition mailto_address (h : string) : string :=
  Py.before_first "?" (Py.drop_str 7 h).

(** A value of a lead record.  [VEmails l] is the string
    [', '.join(l)], kept as the list that is joined; [VJson] is a value
    other value that came out of the language model's reply. *)
Inductive value :=
| VStr (s : string)
| VInt (n : Z)
| VEmails (l : list string)
| VJson (j : json).

(** A decoded JSON string or integer is a Python [str] or [int]. *)
Definition of_json (j : json) : value :=
  match j with
  | JStr s => VStr s
  | JNum n => VInt n
  | _ => VJson j
  end.

(** The cell that the CSV writer gets. *)
Definition emails_cell (l : list string) : string := Py.join ", " l.

(** ** The base variant: [lead_generation.py] *)

Module Base.

(** The keys of [CONFIG] that the pipeline reads. *)
Record config := Config {
  max_emails_per_company : Z;
  contact_keywords : list string;
  email_domains : list string;
  ignore_email_patterns : list string;
  email_regex : Py.regex
}.

(** [CONFIG], with the ['email_regex'] that [main] stores in it. *)
Definition CONFIG : config := {|
  max_emails_per_company := 5;
  contact_keywords :=
    ["contact"; "about"; "team"; "connect"; "reach"; "sales"; "support"; "help"];
  email_domains := ["com"; "io"; "ai"; "co"; "org"; "net"; "us"; "uk"; "ca"];
  ignore_email_patterns :=
    ["noreply"; "no-reply"; "support"; "info"; "hello"; "mailer"; "notification"];
  email_regex := email_pattern None
|}.

Section Methods.

Variable E : env.
Variable cfg : config.

(** *** [get_company_domain] *)

Definition base_names (company_name : string) : list string :=
  [ Py.replace " " "" (Py.lower company_name);
    Py.replace " " "-" (Py.lower company_name);
    Py.lower (Py.join "" (first_letter <$> Py.split company_name)) ].

(** The two nested loops that fill the set [variations]. *)
Definition variations (company_name : string) : gset string :=
  foldl (λ acc name,
           foldl (λ acc domain,
                    {[ "https://www." +:+ name +:+ "." +:+ domain ]} ∪
                    ({[ "https://" +:+ name +:+ "." +:+ domain ]} ∪ acc))
                 acc (email_domains cfg))
        ∅ (base_names company_name).

Definition is_result_link (h : string) : bool :=
  Py.contains "url?q=" h &&
  negb (existsb (λ x, Py.contains x h) ["google.com"; "webcache"]).

(** [href.split('url?q=')[1].split('&')[0]], for an [href] that
    contains ['url?q='] *)
Definition potential_url (h : string) : string :=
  Py.before_first "&" (default "" (Py.split_nth1 "url?q=" h)).

Fixpoint search_links (ls : list link) : M (option string) :=
  match ls with
  | [] => mret None
  | l :: rest =>
      if is_result_link (href l) then
        ok ← check_url_exists E (potential_url (href l));
        if ok : bool then mret (Some (potential_url (href l)))
        else search_links rest
      else search_links rest
  end.

(** The loop over [variations], in whatever order the set yields its
    elements. *)
Definition pattern_phase (company_name : string) : M (option string) :=
  probe_first E (set_iter E (variations company_name)).

Definition get_company_domain (company_name : string) : M (option string) :=
  found ← pattern_phase company_name;
  match found with
  | Some url => mret (Some url)
  | None =>
      try_except
        (pg ← lift (session_get E
                     ("https://www.google.com/search?q=" +:+
                      Py.replace " " "+" company_name +:+ "+official+website"));
         search_links (links pg))
        (λ _, mret None)
  end.

(** *** [extract_emails_from_page] *)

(** Methods 1 to 4: the set [emails] before the filter. *)
Definition collect_emails (pg : page) : gset string :=
  let emails : gset string :=
    list_to_set (Py.findall (email_regex cfg) (get_text pg)) in
  let emails :=
    foldl (λ acc h, if Py.re_match (email_regex cfg) (mailto_address h)
                    then {[ mailto_address h ]} ∪ acc else acc)
          emails (mailto_hrefs pg) in
  let emails :=
    foldl (λ acc t, list_to_set (Py.findall (email_regex cfg) t) ∪ acc)
          emails (form_texts pg) in
  foldl (λ acc t, list_to_set (Py.findall (email_regex cfg) t) ∪ acc)
        emails (hinted_texts pg).

(** [any(pattern in email.lower() for pattern in ...)] *)
Definition ignored (email : string) : bool :=
  existsb (λ pattern, Py.contains pattern (Py.lower email))
          (ignore_email_patterns cfg).

Definition extract_emails_from_page (url : string) : outcome (list string) :=
  catch
    (pg ← session_get E url;
     let filtered_emails :=
       filter (λ email, ignored email = false)
              (set_iter E (collect_emails pg)) in
     mret (Py.slice_to (max_emails_per_company cfg) filtered_emails))
    (λ _, mret []).

(** *** [find_contact_page] *)

Definition common_paths : list string :=
  [ "/contact"; "/contact-us"; "/contact.html";
    "/about/contact"; "/connect"; "/get-in-touch";
    "/contact-sales"; "/demo-request"; "/support";
    "/help"; "/contacto"; "/about-us"; "/team" ].

Definition is_contact_link (l : link) : bool :=
  existsb (λ keyword, Py.contains keyword (Py.lower (link_text l)) ||
                      Py.contains keyword (Py.lower (href l)))
          (contact_keywords cfg).

Definition absolute (base_url l : string) : string :=
  if Py.startswith "http" l then l else urljoin E base_url l.

Definition find_contact_page (base_url : string) : M (option string) :=
  found ← probe_first E (urljoin E base_url <$> common_paths);
  match found with
  | Some contact_url => mret (Some contact_url)
  | None =>
      try_except
        (pg ← lift (session_get E base_url);
         let possible_links := href <$> filter is_contact_link (links pg) in
         probe_first E (absolute base_url <$>
                        set_iter E (list_to_set possible_links)))
        (λ _, mret None)
  end.

(** *** [find_linkedin_profile] *)

Definition is_company_profile (l : link) : bool :=
  Py.contains "linkedin.com/company/" (href l).

Definition is_plain_profile (l : link) : bool :=
  is_company_profile l &&
  negb (existsb (λ x, Py.contains x (href l)) ["/posts"; "/jobs"]).

Definition find_linkedin_profile (company_name : string) : outcome (option string) :=
  catch
    (pg ← session_get E ("https://www.google.com/search?q=" +:+
                         Py.replace " " "+" company_name +:+ "+LinkedIn");
     match List.find is_plain_profile (links pg) with
     | Some l => mret (Some (Py.before_first "&" (href l)))
     | None =>
         pg' ← session_get E
                 ("https://www.google.com/search?q=site:linkedin.com/company+" +:+
                  Py.replace " " "+" company_name);
         mret ((λ l, Py.before_first "&" (href l)) <$>
               List.find is_company_profile (links pg'))
     end)
    (λ _, mret None).

(** *** [get_company_info] *)

(** The loop over [email_sources]. *)
Fixpoint gather (sources : list string) : outcome (list string) :=
  match sources with
  | [] => mret []
  | source :: rest =>
      emails ← extract_emails_from_page source;
      more ← gather rest;
      mret (emails ++ more)
  end.

Definition deeper_pages : list string :=
  ["/about"; "/team"; "/company"; "/leadership"; "/people"].

(** The loop over [deeper_pages]: what it appends to [all_emails]. *)
Fixpoint deeper_search (website : string) (pages : list string) : M (list string) :=
  match pages with
  | [] => mret []
  | p :: rest =>
      ok ← check_url_exists E (urljoin E website p);
      if ok : bool then
        deeper_emails ← lift (extract_emails_from_page (urljoin E website p));
        match deeper_emails with
        | [] => deeper_search website rest
        | _ => mret deeper_emails
        end
      else deeper_search website rest
  end.

(** The dictionary [result]. *)
Definition result (company_name website : string) (linkedin : option string)
    (service_category : string) (all_emails : list string)
    (contact_page : option string) : gmap string value :=
  <[ "company" := VStr company_name ]> (
  <[ "website" := VStr website ]> (
  <[ "linkedin" := VStr (if Py.truthy linkedin then default "" linkedin else "") ]> (
  <[ "service_category" := VStr service_category ]> (
  <[ "emails" := VEmails all_emails ]> (
  <[ "email_count" := VInt (Z.of_nat (length all_emails)) ]> (
  <[ "contact_page" := VStr (if Py.truthy contact_page then default "" contact_page else "") ]> (
  <[ "date_collected" := VStr (now E) ]> (
  <[ "status" := VStr (match all_emails with [] => "No emails found" | _ => "Success" end) ]>
  ∅)))))))).

Definition get_company_info (company_name service_category : string)
    : M (option (gmap string value)) :=
  found ← get_company_domain company_name;
  if Py.truthy found then
    let website := default "" found in
    linkedin ← lift (find_linkedin_profile company_name);
    contact_page ← find_contact_page website;
    let email_sources :=
      website ::
      (if Py.truthy contact_page && negb (bool_decide (contact_page = Some website))
       then [default "" contact_page] else []) in
    gathered ← lift (gather email_sources);
    let all_emails := set_iter E (list_to_set gathered) in
    extra ← match all_emails with
            | [] => deeper_search website deeper_pages
            | _ => mret []
            end;
    mret (Some (result company_name website linkedin service_category
                       (all_emails ++ extra) contact_page))
  else mret None.

End Methods.

(** *** [save_to_csv] *)

Definition fieldnames : list string :=
  [ "company"; "website"; "linkedin"; "service_category";
    "emails"; "email_count"; "contact_page"; "date_collected"; "status" ].

(** [csv.DictWriter.writerows] raises [ValueError] for a row that has a
    key outside the header. *)
Definition rows_fit (header : list string) (leads : list (gmap string value)) : bool :=
  forallb (λ lead, bool_decide (dom lead ⊆ list_to_set header)) leads.

Section Output.

(** [open(filename, 'w', ...)] and the writes to the file: they raise on
    an I/O error. *)
Variable file_sink : string → outcome unit.

Definition save_to_csv (leads : list (gmap string value)) (filename : string)
    : outcome bool :=
  match leads with
  | [] => mret false
  | _ =>
      catch
        (_ ← file_sink filename;
         if rows_fit fieldnames leads then mret true
         else Raised (Exception "ValueError"))
        (λ _, mret false)
  end.

End Output.

End Base.

(** ** The AI-augmented variant: [lead_generation_with_agent.py] *)

Module Agent.

Record config := Config {
  max_emails_per_company : Z;
  contact_keywords : list string;
  email_domains : list string;
  ignore_email_patterns : list string
}.

Definition CONFIG : config := {|
  max_emails_per_company := 5;
  contact_keywords := ["contact"; "about"; "team"; "connect"; "reach"; "sales"];
  email_domains :=
    ["com"; "io"; "ai"; "co"; "org"; "net"; "us"; "uk"; "ca"; "de"; "fr"; "au"];
  ignore_email_patterns :=
    ["noreply"; "no-reply"; "support"; "info"; "hello"; "mailer"]
|}.

(** [self.email_regex] *)
Definition email_regex : Py.regex := email_pattern (Some 7).

(** The names of [SERVICES]; each entry has a ['description']. *)
Definition SERVICES : gmap string string :=
  list_to_map
    [ ("Advanced Analytics",
       "Uncover actionable insights and track conversions effectively with our advanced analytics solutions. Harness the power of data to optimize your marketing strategies and drive conversions.");
      ("Account Based Marketing",
       "Tailor your marketing efforts precisely to high-value accounts with our strategic account-based marketing approach. Engage your target audience on a personalized level and maximize your ROI.");
      ("Sales & Marketing Automation",
       "Streamline your sales and marketing processes with our automation solutions. From lead nurturing to email campaigns, automate repetitive tasks and focus on building meaningful connections.");
      ("HubSpot Excellence",
       "Unlock the full potential of HubSpot with our expert guidance and support. From implementation to optimization, we ensure you get the most out of HubSpot's powerful features.");
      ("CRM Migration",
       "Seamlessly transition your CRM system with our migration services. Our experienced team ensures a smooth migration process, preserving data integrity and minimizing disruptions.");
      ("CRM Strategy",
       "Develop a comprehensive CRM strategy tailored to your business goals with our expertise. From lead management to customer retention, we help you maximize your CRM investment.") ].

Section Methods.

Variable E : env.
Variable cfg : config.
(** [self.services], reduced to the descriptions *)
Variable services : gmap string string.

(** [self.services[service_name]["description"]] *)
Definition description (service_name : string) : outcome string :=
  match services !! service_name with
  | Some d => Returned d
  | None => Raised (Exception "KeyError")
  end.

(** *** [ai_enhance_company_info] *)

Definition ai_enhance_company_info (company_name service_name : string)
    : outcome (gmap string json) :=
  catch
    (_ ← description service_name;
     insight_chain E company_name service_name)
    (λ _, mret ∅).

(** *** [get_company_domain] *)

Definition name_variations (company_name : string) : list string :=
  [ Py.replace " " "" (Py.lower company_name);
    Py.replace " " "-" (Py.lower company_name);
    Py.replace "&" "and" (Py.replace " " "" (Py.lower company_name));
    Py.lower (Py.join "" (first_letter <$> Py.split company_name)) ].

(** The URLs of the three nested loops, in the order in which they are
    built and probed. *)
Definition candidate_urls (company_name : string) : list string :=
  name ← name_variations company_name;
  domain ← email_domains cfg;
  prefix ← [""; "www."];
  [ "https://" +:+ prefix +:+ name +:+ "." +:+ domain ].

Definition has_known_domain (r : search_result) : bool :=
  match result_url r with
  | Some url => existsb (λ domain, Py.contains domain url) (email_domains cfg)
  | None => false
  end.

Definition pattern_phase (company_name : string) : M (option string) :=
  probe_first E (candidate_urls company_name).

Definition get_company_domain (company_name : string) : M (option string) :=
  found ← pattern_phase company_name;
  match found with
  | Some url => mret (Some url)
  | None =>
      lift (catch
              (results ← search_tool E (company_name +:+ " official website");
               mret (List.find has_known_domain results ≫= result_url))
              (λ _, mret None))
  end.

(** *** [search_emails_with_api] *)

(** [any(p in e.lower() for p in ...)] *)
Definition ignored (email : string) : bool :=
  existsb (λ p, Py.contains p (Py.lower email)) (ignore_email_patterns cfg).

Definition kept_lower (found_emails : list string) : list string :=
  Py.lower <$> filter (λ e, ignored e = false) found_emails.

(** The loop over [results] that fills the set [emails]. *)
Definition api_email_set (results : list search_result) : gset string :=
  foldl (λ acc r,
           match result_content r with
           | Some content =>
               list_to_set (kept_lower (Py.findall email_regex content)) ∪ acc
           | None => acc
           end)
        ∅ results.

Definition search_emails_with_api (company_name : string) (domain : option string)
    : M (list string) :=
  domain ← (if Py.truthy domain then mret domain
            else get_company_domain company_name);
  if Py.truthy domain then
    lift (catch
            (results ← search_tool E
                         ("email contacts @" +:+ netloc E (default "" domain) +:+
                          " -@gmail.com -@yahoo.com -@outlook.com");
             mret (Py.slice_to (max_emails_per_company cfg)
                               (set_iter E (api_email_set results))))
            (λ _, mret []))
  else mret [].

(** *** [find_contact_page] *)

Definition common_paths : list string :=
  ["/contact"; "/contact-us"; "/about/contact"; "/connect"].

Definition is_contact_link (l : link) : bool :=
  existsb (λ kw, Py.contains kw (Py.lower (link_text l)) ||
                 Py.contains kw (Py.lower (href l)))
          (contact_keywords cfg) &&
  negb (existsb (λ p, Py.startswith p (Py.lower (href l)))
                ["mailto:"; "tel:"; "javascript:"]).

Definition absolute (base_url l : string) : string :=
  if Py.startswith "http" l then l else urljoin E base_url l.

Definition find_contact_page (base_url : string) : M (option string) :=
  try_except
    (found ← probe_first E (urljoin E base_url <$> common_paths);
     match found with
     | Some contact_url => mret (Some contact_url)
     | None =>
         pg ← lift (session_get E base_url);
         let contact_links := href <$> filter is_contact_link (links pg) in
         probe_first E (absolute base_url <$>
                        set_iter E (list_to_set contact_links))
     end)
    (λ _, mret None).

(** *** [extract_emails_from_page] *)

(** Methods 1 to 3: the set [emails] before the filter. *)
Definition collect_emails (pg : page) : gset string :=
  let emails : gset string :=
    list_to_set (Py.findall email_regex (get_text pg)) in
  let emails :=
    foldl (λ acc h, if Py.re_match email_regex (mailto_address h)
                    then {[ mailto_address h ]} ∪ acc else acc)
          emails (mailto_hrefs pg) in
  foldl (λ acc t, list_to_set (Py.findall email_regex t) ∪ acc)
        emails (form_texts pg).

Definition extract_emails_from_page (url : string) : outcome (list string) :=
  catch
    (pg ← session_get E url;
     let filtered_emails := kept_lower (set_iter E (collect_emails pg)) in
     mret (Py.slice_to (max_emails_per_company cfg) filtered_emails))
    (λ _, mret []).

(** *** [get_company_info] *)

(** The dictionary [result]: the eight keys of the literal, then
    [**ai_insights], whose keys win over the literal's.  The insight is a
    JSON object, as the annotation of [ai_enhance_company_info] has it. *)
Definition result (company_name website service_name service_description : string)
    (emails : gset string) (ai_insights : gmap string json)
    : gmap string value :=
  (of_json <$> ai_insights) ∪ (
  <[ "company" := VStr company_name ]> (
  <[ "website" := VStr website ]> (
  <[ "service" := VStr service_name ]> (
  <[ "service_description" := VStr service_description ]> (
  <[ "emails" := VEmails (Py.slice_to (max_emails_per_company cfg)
                                      (set_iter E emails)) ]> (
  <[ "email_count" := VInt (Z.of_nat (size emails)) ]> (
  <[ "date_collected" := VStr (now E) ]> (
  <[ "status" := VStr (if bool_decide (emails = ∅) then "Partial" else "Success") ]>
  ∅)))))))).

Definition get_company_info (company_name service_name : string)
    : M (option (gmap string value)) :=
  found ← get_company_domain company_name;
  if Py.truthy found then
    let website := default "" found in
    ai_insights ← lift (ai_enhance_company_info company_name service_name);
    api_emails ← search_emails_with_api company_name (Some website);
    let emails : gset string := list_to_set api_emails in
    emails ←
      (if (Z.of_nat (size emails) <? max_emails_per_company cfg)%Z then
         contact_page ← find_contact_page website;
         if Py.truthy contact_page then
           scraped_emails ← lift (extract_emails_from_page (default "" contact_page));
           mret (emails ∪ list_to_set scraped_emails)
         else mret emails
       else mret emails);
    service_description ← lift (description service_name);
    mret (Some (result company_name website service_name service_description
                       emails ai_insights))
  else mret None.

End Methods.

(** *** [ai_suggest_companies], [generate_leads] and [save_leads_to_csv] *)

Section Driver.

Variable E : env.
Variable cfg : config.
Variable services : gmap string string.
(** the chain of [ai_suggest_companies], by service: the reply decoded as
    a list of company names *)
Variable suggest_chain : string → outcome (list string).
(** [open(self.config['output_file'], 'w', ...)] and the writes *)
Variable file_sink : outcome unit.




(** [sorted(fieldnames)] for the union of the keys of all leads *)
Definition header (leads : list (gmap string value)) : list string :=
  merge_sort String.le (set_iter E (foldl (λ acc lead, dom lead ∪ acc) ∅ leads)).

Definition save_leads_to_csv (leads : list (gmap string value)) : outcome bool :=
  match leads with
  | [] => mret false
  | _ =>
      catch
        (_ ← file_sink;
         if Base.rows_fit (header leads) leads then mret true
         else Raised (Exception "ValueError"))
        (λ _, mret false)
  end.

End Driver.

(** The keys of [SERVICES] in the order of the source. *)
Definition SERVICE_NAMES : list string :=
  [ "Advanced Analytics"; "Account Based Marketing"; "Sales & Marketing Automation";
    "HubSpot Excellence"; "CRM Migration"; "CRM Strategy" ].

End Agent.

(** ** The candidate set in the words of the specification *)

Module Spec.

Definition remove_spaces (s : string) : string :=
  string_of_list_ascii
    (filter (λ c, c ≠ " "%char) (list_ascii_of_string s)).

Definition hyphenate (s : string) : string :=
  string_of_list_ascii
    ((λ c, if Ascii.eqb c " " then "-"%char else c) <$> list_ascii_of_string s).

(** The first character of every maximal run of non-blank characters;
    [at_start] says that the position is the start of the text or
    follows a blank. *)
Fixpoint initials (at_start : bool) (s : string) : string :=
  match s with
  | EmptyString => EmptyString
  | String c s' =>
      if Py.is_space c then initials true s'
      else if at_start then String c (initials false s')
      else initials false s'
  end.

(** lowercase with spaces removed *)
Definition compact (company_name : string) : string :=
  remove_spaces (Py.lower company_name).

(** lowercase with spaces replaced by hyphens *)
Definition hyphenated (company_name : string) : string :=
  hyphenate (Py.lower company_name).

(** the acronym of the first letters of each word, in lowercase *)
Definition acronym (company_name : string) : string :=
  Py.lower (initials true company_name).

Definition three_variants (company_name : string) : list string :=
  [compact company_name; hyphenated company_name; acronym company_name].

(** The variant that only the AI-augmented source has: [compact] with
    every ampersand spelled out. *)
Definition spelled_out (company_name : string) : string :=
  Py.replace "&" "and" (compact company_name).

(** [url] is in the cross product of the variants, the top-level
    domains and the two prefixes. *)
Definition in_cross (variants tlds : list string) (url : string) : Prop :=
  ∃ name domain prefix,
    name ∈ variants ∧ domain ∈ tlds ∧ prefix ∈ [""; "www."] ∧
    url = "https://" +:+ prefix +:+ name +:+ "." +:+ domain.

(** The same cross product as a list. *)
Definition cross (variants tlds : list string) : list string :=
  name ← variants;
  domain ← tlds;
  prefix ← [""; "www."];
  [ "https://" +:+ prefix +:+ name +:+ "." +:+ domain ].

End Spec.

(** ** Small worlds to run the embedding in *)

Module Sample.

(** A network that answers 200 for the URLs of [live], whatever came
    before, and 404 for every other. *)
Definition head_of (live : list string) : list string → string → head_result :=
  λ _ url, if bool_decide (url ∈ live) then HeadStatus 200 else HeadStatus 404.

Fixpoint lookup_page (pages : list (string * page)) (url : string) : outcome page :=
  match pages with
  | [] => Raised (Exception "ConnectionError")
  | (u, pg) :: rest => if String.eqb u url then Returned pg else lookup_page rest url
  end.

(** A page that is nothing but text. *)
Definition text_page (t : string) : page := Page [] t [] [] [].

(** [urljoin] and [netloc] are right for a site root and an absolute
    path, which is all the samples use. *)
Definition world (live : list string) (pages : list (string * page))
    (results : list search_result) (insights : gmap string json) : env := {|
  requests_head := head_of live;
  session_get := lookup_page pages;
  urljoin := λ base path, base +:+ path;
  netloc := Py.drop_str 8;
  set_iter := elements;
  search_tool := λ _, Returned results;
  insight_chain := λ _ _, Returned insights;
  now := "2025-01-01 09:00"
|}.

(** Nothing answers. *)
Definition silent : env := world [] [] [] ∅.

(** One site, two pages with five addresses each. *)
Definition two_pages : env :=
  world ["https://acme.com"; "https://acme.com/contact"]
        [ ("https://acme.com",
           text_page "a1@acme.com a2@acme.com a3@acme.com a4@acme.com a5@acme.com");
          ("https://acme.com/contact",
           text_page "b1@acme.com b2@acme.com b3@acme.com b4@acme.com b5@acme.com") ]
        [] ∅.

(** One site whose home page spells one mailbox in two ways. *)
Definition two_spellings : env :=
  world ["https://acme.com"]
        [ ("https://acme.com", text_page "Write to Bob@acme.com or bob@acme.com") ]
        [] ∅.

(** One site without addresses; the language model's reply has a
    ['status'] of its own. *)
Definition own_status : env :=
  world ["https://acme.com"]
        [ ("https://acme.com", text_page "Welcome to Acme") ]
        [] {[ "status" := JStr "Success" ]}.

(** Four addresses from the search API, five more on the contact
    page. *)
Definition api_and_page : env :=
  world ["https://acme.com"; "https://acme.com/contact"]
        [ ("https://acme.com/contact",
           text_page "b1@acme.com b2@acme.com b3@acme.com b4@acme.com b5@acme.com") ]
        [ SearchResult (Some "https://acme.com/team")
            (Some "a1@acme.com a2@acme.com a3@acme.com a4@acme.com") ]
        ∅.

(** A contact page with a [mailto:] link and two addresses in its
    text, one of them a system mailbox. *)
Definition contact_page : env :=
  world ["https://acme.com"]
        [ ("https://acme.com/contact",
           Page [Link "Sales" "mailto:sales@acme.com"]
                "Reach us at press@acme.com or noreply@acme.com"
                ["mailto:sales@acme.com"] [] []);
          ("https://acme.com", text_page "Welcome to Acme") ]
        [] ∅.

End Sample.

(** ** Vocabulary of the properties *)

(** The requests that have gone out are pairwise distinct, and each was
    recorded in the cache before it went out. *)
Definition cache_inv (st : state) : Prop :=
  NoDup (head_requests st) ∧ ∀ url, url ∈ head_requests st → url ∈ processed_urls st.

(** A method that keeps [cache_inv]. *)
Definition preserves {A} (m : M A) : Prop :=
  ∀ st, cache_inv st → cache_inv (m st).2.

(** The same with the requests that workers are about to send. *)
Definition pool_inv (c : state * list worker) : Prop :=
  NoDup (head_requests c.1 ++ (c.2 ≫= pending)) ∧
  ∀ url, url ∈ head_requests c.1 ++ (c.2 ≫= pending) → url ∈ processed_urls c.1.

(** Would a HEAD request for [url], sent in state [st], end with status
    200? *)
Definition head_ok (E : env) (st : state) (url : string) : bool :=
  match requests_head E (head_requests st) url with
  | HeadStatus code => (code =? 200)%Z
  | HeadRaised _ => false
  end.

(** [p] occurs in [e] when letter case is ignored on both sides. *)
Definition contains_ci (p e : string) : bool :=
  Py.contains (Py.lower p) (Py.lower e).

(** A deny-list written in lowercase, as both shipped ones are. *)
Definition lowercase_patterns (patterns : list string) : Prop :=
  Forall (λ p, Py.lower p = p) patterns.

(** A page on which none of the extraction methods finds anything. *)
Definition no_matching_markup (rx : Py.regex) (with_hints : bool) (pg : page) : Prop :=
  Py.findall rx (get_text pg) = [] ∧
  Forall (λ h, Py.re_match rx (mailto_address h) = false) (mailto_hrefs pg) ∧
  Forall (λ t, Py.findall rx t = []) (form_texts pg) ∧
  (with_hints = true → Forall (λ t, Py.findall rx t = []) (hinted_texts pg)).

(** The field ['emails'] of a record, read as a list of addresses. *)
Definition emails_of (r : gmap string value) : option (list string) :=
  match r !! "emails" with
  | Some (VEmails l) => Some l
  | _ => None
  end.

(** The record that a run of the assembler produced, if it produced
    one. *)
Definition produced {A} (run : outcome (option A) * state) : option A :=
  match run.1 with
  | Returned (Some r) => Some r
  | _ => None
  end.

(** The addresses listed in that record, and one of its fields. *)
Definition listed (run : outcome (option (gmap string value)) * state)
    : option (list string) :=
  produced run ≫= emails_of.

Definition field (key : string) (run : outcome (option (gmap string value)) * state)
    : option value :=
  produced run ≫= (λ r, r !! key).

(** No two addresses are equal when letter case is ignored. *)
Definition distinct_ci (l : list string) : Prop := NoDup (Py.lower <$> l).

(** Between [st] and [st'] the request log has only grown at its end and
    the probe cache has lost nothing. *)
Definition extends (st st' : state) : Prop :=
  (∃ sent, head_requests st' = head_requests st ++ sent) ∧
  processed_urls st ⊆ processed_urls st'.

(** Between [st] and [st'] a HEAD request for [url] went out and came back
    with status 200. *)
Definition answered_200 (E : env) (st st' : state) (url : string) : Prop :=
  ∃ before after,
    head_requests st' = head_requests st ++ before ++ url :: after ∧
    requests_head E (head_requests st ++ before) url = HeadStatus 200.

(** A method under which the state only [extends]. *)
Definition monotone {A} (m : M A) : Prop := ∀ st, extends st (m st).2.

(** A method that never raises. *)
Definition returns {A} (m : M A) : Prop := ∀ st, ∃ a st', m st = (Returned a, st').

(** No deny-listed pattern of the AI-augmented configuration occurs in
    [e]. *)
Definition clean (patterns : list string) (e : string) : Prop :=
  ∀ p, p ∈ patterns → Py.contains p e = false.

(** A method whose result, when it is a URL, is one that it has just
    probed with success: the URL was not in the cache before, is in it
    after, and was answered with status 200 in between. *)
Definition hands_back_probed (E : env) (m : M (option string)) : Prop :=
  ∀ st url st',
    m st = (Returned (Some url), st') →
    (url ∉ processed_urls st) ∧ url ∈ processed_urls st' ∧ answered_200 E st st' url.

(** Every character of [s] is in the class [p]. *)
Fixpoint all_chars (p : ascii → bool) (s : string) : bool :=
  match s with
  | EmptyString => true
  | String c s' => p c && all_chars p s'
  end.

(** A local part, an at sign, a domain part, a dot and a last part of at
    least two characters (and at most [hi], when there is a [hi]), each
    part made of the characters of its class. *)
Definition email_shape (hi : option nat) (m : string) : Prop :=
  ∃ l d t,
    m = l +:+ "@" +:+ d +:+ "." +:+ t ∧
    l ≠ "" ∧ all_chars local_char l = true ∧
    d ≠ "" ∧ all_chars domain_char d = true ∧
    (2 ≤ String.length t)%nat ∧ (∀ h, hi = Some h → (String.length t ≤ h)%nat) ∧
    all_chars tld_char t = true.

(** * Properties *)

(** ** The monad *)

Lemma bind_returned {A B} (m : M A) (f : A → M B) st a st' :
  m st = (Returned a, st') → (m ≫= f) st = f a st'.
Proof. intros H. unfold mbind, M_bind. by rewrite H. Qed.

Lemma bind_raised {A B} (m : M A) (f : A → M B) st e st' :
  m st = (Raised e, st') → (m ≫= f) st = (Raised e, st').
Proof. intros H. unfold mbind, M_bind. by rewrite H. Qed.

(** ** The prober *)

Lemma fresh_inv : cache_inv fresh.
Proof. split; [constructor | intros url H; inversion H]. Qed.

Section ProberFacts.

Variable E : env.

Lemma check_url_exists_hit url st :
  url ∈ processed_urls st → check_url_exists E url st = (Returned false, st).
Proof.
  intros Hin. unfold check_url_exists, try_except, mbind, M_bind, lock_block.
  by rewrite decide_True.
Qed.

Lemma check_url_exists_miss url st :
  url ∉ processed_urls st →
  check_url_exists E url st =
    (Returned (head_ok E st url),
     State ({[url]} ∪ processed_urls st) (head_requests st ++ [url])).
Proof.
  intros Hnin.
  unfold check_url_exists, try_except, mbind, M_bind, lock_block, head_call, head_ok.
  rewrite decide_False by done. simpl.
  by destruct (requests_head E (head_requests st) url).
Qed.

Lemma check_url_exists_returns url st :
  ∃ b st', check_url_exists E url st = (Returned b, st').
Proof.
  destruct (decide (url ∈ processed_urls st)) as [Hin|Hnin].
  - rewrite check_url_exists_hit by done. eauto.
  - rewrite check_url_exists_miss by done. eauto.
Qed.

Lemma check_url_exists_inv url st :
  cache_inv st → cache_inv (check_url_exists E url st).2.
Proof.
  intros [Hnd Hsub].
  destruct (decide (url ∈ processed_urls st)) as [Hin|Hnin].
  - rewrite check_url_exists_hit by done. by split.
  - rewrite check_url_exists_miss by done. split; simpl.
    + apply NoDup_app. split_and!; [done | | apply NoDup_singleton].
      intros u Hu Hu'. apply list_elem_of_singleton in Hu' as ->. auto.
    + intros u [Hu | Hu]%elem_of_app.
      * set_solver.
      * apply list_elem_of_singleton in Hu. set_solver.
Qed.

Lemma check_url_exists_grows url st :
  processed_urls st ⊆ processed_urls (check_url_exists E url st).2.
Proof.
  destruct (decide (url ∈ processed_urls st)) as [Hin|Hnin].
  - by rewrite check_url_exists_hit.
  - rewrite check_url_exists_miss by done. simpl. set_solver.
Qed.

Lemma probe_all_returns urls st :
  ∃ bs st', probe_all E urls st = (Returned bs, st').
Proof.
  revert st. induction urls as [|url rest IH]; intros st; simpl.
  - by eexists _, _.
  - destruct (check_url_exists_returns url st) as (b & st1 & H1).
    destruct (IH st1) as (bs & st2 & H2).
    exists (b :: bs), st2.
    rewrite (bind_returned _ _ _ _ _ H1), (bind_returned _ _ _ _ _ H2). done.
Qed.

Lemma probe_all_inv urls st :
  cache_inv st → cache_inv (probe_all E urls st).2.
Proof.
  revert st. induction urls as [|url rest IH]; intros st Hinv; simpl; [done|].
  destruct (check_url_exists_returns url st) as (b & st1 & H1).
  pose proof (check_url_exists_inv url st Hinv) as Hinv1. rewrite H1 in Hinv1.
  destruct (probe_all_returns rest st1) as (bs & st2 & H2).
  specialize (IH st1 Hinv1). rewrite H2 in IH.
  rewrite (bind_returned _ _ _ _ _ H1), (bind_returned _ _ _ _ _ H2). done.
Qed.

End ProberFacts.

Lemma filter_eq_absent (l : list string) (x : string) :
  x ∉ l → filter (λ y, y = x) l = [].
Proof.
  induction l as [|y l IH]; [done|].
  intros [Hne Hnin]%not_elem_of_cons.
  rewrite filter_cons_False by congruence. auto.
Qed.

Lemma NoDup_count_le_1 (l : list string) (x : string) :
  NoDup l → (length (filter (λ y, y = x) l) ≤ 1)%nat.
Proof.
  induction 1 as [|y l Hy Hnd IH]; simpl; [lia|].
  rewrite filter_cons. case_decide as Hxy; simpl; [|done].
  subst y. rewrite filter_eq_absent by done. simpl. lia.
Qed.

(** *** Methods that keep the invariant *)

Lemma preserves_ret {A} (a : A) : preserves (mret a : M A).
Proof. by intros st. Qed.

Lemma preserves_lift {A} (o : outcome A) : preserves (lift o).
Proof. by intros st. Qed.

Lemma preserves_bind {A B} (m : M A) (f : A → M B) :
  preserves m → (∀ a, preserves (f a)) → preserves (m ≫= f).
Proof.
  intros Hm Hf st Hinv. specialize (Hm st Hinv).
  unfold mbind, M_bind. destruct (m st) as [[a|e] st1]; [by apply Hf | done].
Qed.

Lemma preserves_try {A} (body : M A) (handler : exn → M A) :
  preserves body → (∀ e, preserves (handler e)) → preserves (try_except body handler).
Proof.
  intros Hb Hh st Hinv. specialize (Hb st Hinv).
  unfold try_except. destruct (body st) as [[a|e] st1]; [done | by apply Hh].
Qed.

Section Preservation.

Variable E : env.

Lemma preserves_check url : preserves (check_url_exists E url).
Proof. intros st. apply check_url_exists_inv. Qed.

Lemma preserves_probe_first urls : preserves (probe_first E urls).
Proof.
  induction urls as [|url rest IH]; simpl; [apply preserves_ret|].
  apply preserves_bind; [apply preserves_check|].
  intros [|]; [apply preserves_ret | apply IH].
Qed.

Lemma preserves_search_links ls : preserves (Base.search_links E ls).
Proof.
  induction ls as [|l rest IH]; simpl; [apply preserves_ret|].
  destruct (Base.is_result_link (href l)); [|apply IH].
  apply preserves_bind; [apply preserves_check|].
  intros [|]; [apply preserves_ret | apply IH].
Qed.

Lemma preserves_base_domain cfg company_name :
  preserves (Base.get_company_domain E cfg company_name).
Proof.
  apply preserves_bind; [apply preserves_probe_first|].
  intros [url|]; [apply preserves_ret|].
  apply preserves_try; [|intros; apply preserves_ret].
  apply preserves_bind; [apply preserves_lift|].
  intros pg. apply preserves_search_links.
Qed.

Lemma preserves_agent_domain cfg company_name :
  preserves (Agent.get_company_domain E cfg company_name).
Proof.
  apply preserves_bind; [apply preserves_probe_first|].
  intros [url|]; [apply preserves_ret | apply preserves_lift].
Qed.

Lemma preserves_base_contact cfg base_url :
  preserves (Base.find_contact_page E cfg base_url).
Proof.
  apply preserves_bind; [apply preserves_probe_first|].
  intros [url|]; [apply preserves_ret|].
  apply preserves_try; [|intros; apply preserves_ret].
  apply preserves_bind; [apply preserves_lift|].
  intros pg. apply preserves_probe_first.
Qed.


Lemma preserves_deeper_search cfg website pages :
  preserves (Base.deeper_search E cfg website pages).
Proof.
  induction pages as [|p rest IH]; simpl; [apply preserves_ret|].
  apply preserves_bind; [apply preserves_check|].
  intros [|]; [|apply IH].
  apply preserves_bind; [apply preserves_lift|].
  intros [|e l]; [apply IH | apply preserves_ret].
Qed.

Lemma preserves_base_info cfg company_name service_category :
  preserves (Base.get_company_info E cfg company_name service_category).
Proof.
  apply preserves_bind; [apply preserves_base_domain|].
  intros found. destruct (Py.truthy found); [|apply preserves_ret].
  apply preserves_bind; [apply preserves_lift|]. intros linkedin.
  apply preserves_bind; [apply preserves_base_contact|]. intros contact_page.
  apply preserves_bind; [apply preserves_lift|]. intros gathered.
  apply preserves_bind; [|intros; apply preserves_ret].
  destruct (set_iter E (list_to_set gathered));
    [apply preserves_deeper_search | apply preserves_ret].
Qed.



End Preservation.

(** C1. Within one run no URL is probed twice.  Whatever the sequence of
    probe calls made on a new instance, every URL occurs at most once
    among the HEAD requests that went out; a call for a URL that is
    already recorded in the probe cache sends no request at all; and the
    domain resolver of either variant, run in any state that probe calls
    have led to, leaves the requests pairwise distinct. *)
Theorem C1_no_url_probed_twice (E : env) :
  (∀ urls url,
     (length (filter (λ u, u = url) (head_requests (probe_all E urls fresh).2)) ≤ 1)%nat) ∧
  (∀ st url,
     url ∈ processed_urls st →
     head_requests (check_url_exists E url st).2 = head_requests st) ∧
  (∀ cfg company_name, preserves (Base.get_company_domain E cfg company_name)) ∧
  (∀ cfg company_name, preserves (Agent.get_company_domain E cfg company_name)).
Proof.
  split_and!.
  - intros urls url. apply NoDup_count_le_1.
    apply (probe_all_inv E urls fresh fresh_inv).
  - intros st url Hin. by rewrite check_url_exists_hit.
  - apply preserves_base_domain.
  - apply preserves_agent_domain.
Qed.

Lemma C1_witness :
  (length (filter (λ u, u = "https://acme.com")
     (head_requests
        (probe_all Sample.silent ["https://acme.com"; "https://acme.com"] fresh).2)) ≤ 1)%nat ∧
  head_requests
    (check_url_exists Sample.silent "https://acme.com"
       (State {[ "https://acme.com" ]} ["https://acme.com"])).2 = ["https://acme.com"] ∧
  NoDup (head_requests
           (Base.get_company_domain Sample.silent Base.CONFIG "Acme" fresh).2).
Proof.
  destruct (C1_no_url_probed_twice Sample.silent) as (Hcount & Hhit & Hbase & _).
  split_and!; [apply Hcount | apply Hhit; simpl; set_solver |].
  apply (Hbase Base.CONFIG "Acme" fresh fresh_inv).
Defined.

(** C5. The prober always returns a boolean and never raises.  The
    boolean is [true] exactly when the URL was not yet in the probe cache
    and the HEAD request, redirects followed, ended with status 200; so a
    cache hit, an exception and any other status all give [false]. *)
Theorem C5_probe_true_iff_200 (E : env) (url : string) (st : state) :
  ∃ b st',
    check_url_exists E url st = (Returned b, st') ∧
    (b = true ↔
       (url ∉ processed_urls st) ∧
       requests_head E (head_requests st) url = HeadStatus 200) ∧
    (url ∈ processed_urls st → b = false) ∧
    (∀ e, requests_head E (head_requests st) url = HeadRaised e → b = false) ∧
    (∀ code, requests_head E (head_requests st) url = HeadStatus code →
             code ≠ 200%Z → b = false).
Proof.
  destruct (decide (url ∈ processed_urls st)) as [Hin|Hnin].
  - exists false, st. rewrite check_url_exists_hit by done.
    split_and!; try done. split; [done | by intros [? _]].
  - eexists _, _. rewrite check_url_exists_miss by done.
    split; [reflexivity|]. unfold head_ok.
    destruct (requests_head E (head_requests st) url) as [e|code].
    + split_and!; try done. split; [done | by intros [_ ?]].
    + split_and!.
      * rewrite Z.eqb_eq. split; [intros ->; done | by intros [_ [= ->]]].
      * done.
      * done.
      * intros c [= <-] Hne. by apply Z.eqb_neq.
Qed.

Lemma C5_witness :
  ∃ b st',
    check_url_exists Sample.two_pages "https://acme.com" fresh = (Returned b, st') ∧
    b = true.
Proof.
  destruct (C5_probe_true_iff_200 Sample.two_pages "https://acme.com" fresh)
    as (b & st' & Heq & Hiff & _).
  exists b, st'. split; [exact Heq|].
  apply Hiff. split; [set_solver | reflexivity].
Defined.

(** C9. With a deterministic network, probing a URL on a fresh probe
    cache gives the same boolean every time it is done: the answer to the
    second probe does not depend on the requests made before it. *)
Theorem C9_probe_idempotent_on_fresh_cache (E : env) (url : string) (st1 st2 : state) :
  (∀ h h' u, requests_head E h u = requests_head E h' u) →
  processed_urls st1 = ∅ →
  processed_urls st2 = ∅ →
  (check_url_exists E url st1).1 = (check_url_exists E url st2).1.
Proof.
  intros Hdet H1 H2.
  rewrite !check_url_exists_miss by (rewrite ?H1, ?H2; set_solver).
  simpl. unfold head_ok. by rewrite (Hdet (head_requests st1) (head_requests st2)).
Qed.

Lemma C9_witness :
  (check_url_exists Sample.two_pages "https://acme.com" fresh).1 =
  (check_url_exists Sample.two_pages "https://acme.com"
     (State ∅ ["https://acme.com"])).1.
Proof.
  apply (C9_probe_idempotent_on_fresh_cache Sample.two_pages "https://acme.com"
           fresh (State ∅ ["https://acme.com"])); reflexivity.
Defined.

(** *** Interleaved probes *)

Lemma pending_split (ws1 ws2 : list worker) (w : worker) :
  (ws1 ++ w :: ws2) ≫= pending = (ws1 ≫= pending) ++ pending w ++ (ws2 ≫= pending).
Proof. by rewrite bind_app, bind_cons. Qed.

Lemma pending_idle (jobs : list (list string)) : (Idle <$> jobs) ≫= pending = [].
Proof. induction jobs as [|j jobs IH]; [done|]. by rewrite fmap_cons, bind_cons, IH. Qed.

Lemma step_pool_inv (E : env) (c c' : state * list worker) :
  step E c c' → pool_inv c → pool_inv c'.
Proof.
  intros Hstep. destruct Hstep as [st ws1 ws2 url todo | st ws1 ws2 url todo];
    unfold pool_inv; simpl; rewrite pending_split; simpl; intros [Hnd Hsub].
  - unfold lock_block. case_decide as Hin; simpl; rewrite pending_split; simpl; [done|].
    assert (head_requests st ++ (ws1 ≫= pending) ++ url :: (ws2 ≫= pending) ≡ₚ
            url :: (head_requests st ++ (ws1 ≫= pending) ++ (ws2 ≫= pending))) as Hperm.
    { by rewrite !Permutation_middle. }
    split.
    + rewrite Hperm. apply NoDup_cons. split; [|done]. intros Hurl. by apply Hin, Hsub.
    + intros u Hu. rewrite Hperm in Hu.
      apply elem_of_cons in Hu as [-> | Hu]; [set_solver|].
      apply elem_of_union_r. by apply Hsub.
  - unfold head_call.
    assert ((head_requests st ++ [url]) ++ (ws1 ≫= pending) ++ (ws2 ≫= pending) ≡ₚ
            head_requests st ++ (ws1 ≫= pending) ++ url :: (ws2 ≫= pending)) as Hperm.
    { rewrite <- (assoc_L (++)). simpl. f_equiv.
      first [apply Permutation_middle | symmetry; apply Permutation_middle]. }
    destruct (requests_head E (head_requests st) url); simpl;
      rewrite pending_split; simpl; (split; [by rewrite Hperm|]);
      intros u Hu; apply Hsub; by rewrite <- Hperm.
Qed.

(** X19. However the steps of the workers interleave, starting from a
    new instance, the HEAD requests that have gone out are pairwise
    distinct. *)
Theorem interleaved_probes_distinct (E : env) (jobs : list (list string))
    (st : state) (ws : list worker) :
  rtc (step E) (fresh, Idle <$> jobs) (st, ws) → NoDup (head_requests st).
Proof.
  intros Hrun.
  assert (pool_inv (st, ws)) as [Hnd _].
  { revert Hrun. generalize (st, ws). apply rtc_ind_r.
    - unfold pool_inv. simpl. rewrite pending_idle.
      split; [constructor | intros url H; inversion H].
    - intros c c' _ Hstep IH. by eapply step_pool_inv. }
  simpl in Hnd. by apply NoDup_app in Hnd as [? _].
Qed.

(** On one and the same cache the second probe of a URL is a cache hit:
    it returns [false] whatever the first one returned. *)
Lemma second_probe_same_cache (E : env) (url : string) (st : state) :
  (check_url_exists E url (check_url_exists E url st).2).1 = Returned false.
Proof.
  rewrite check_url_exists_hit; [done|].
  destruct (decide (url ∈ processed_urls st)) as [Hin|Hnin].
  - by rewrite check_url_exists_hit.
  - rewrite check_url_exists_miss by done. simpl. set_solver.
Qed.

(** ** Strings and slices *)

Lemma lower_char_idemp (c : ascii) : Py.lower_char (Py.lower_char c) = Py.lower_char c.
Proof. destruct c as [[] [] [] [] [] [] [] []]; reflexivity. Qed.

Lemma lower_idemp (s : string) : Py.lower (Py.lower s) = Py.lower s.
Proof.
  induction s as [|c s IH]; simpl; [done|].
  by rewrite lower_char_idemp, IH.
Qed.

Lemma fmap_lower_fixed (l : list string) :
  (∀ e, e ∈ l → Py.lower e = e) → Py.lower <$> l = l.
Proof.
  induction l as [|x l IH]; intros H; [done|].
  rewrite fmap_cons, (H x), IH; [done | | left].
  intros e He. apply H. by right.
Qed.

Lemma slice_to_sublist {A} (n : Z) (l : list A) : sublist (Py.slice_to n l) l.
Proof. unfold Py.slice_to. case_match; apply sublist_take. Qed.

Lemma slice_to_elem {A} (n : Z) (l : list A) (x : A) :
  x ∈ Py.slice_to n l → x ∈ l.
Proof. apply (sublist_subseteq _ _ (slice_to_sublist n l)). Qed.

Lemma slice_to_NoDup {A} (n : Z) (l : list A) : NoDup l → NoDup (Py.slice_to n l).
Proof. intros H. exact (sublist_NoDup _ _ H (slice_to_sublist n l)). Qed.

Lemma slice_to_length {A} (n : Z) (l : list A) :
  (0 ≤ n)%Z → (Z.of_nat (length (Py.slice_to n l)) ≤ n)%Z.
Proof.
  intros Hn. unfold Py.slice_to.
  rewrite (proj2 (Z.leb_le 0 n) Hn), length_take. lia.
Qed.

Lemma slice_to_nil {A} (n : Z) : Py.slice_to n (@nil A) = [].
Proof. unfold Py.slice_to. case_match; by rewrite take_nil. Qed.

(** ** Sets and their iteration order *)

Section SetIter.

Variable E : env.
Hypothesis Hiter : set_iter_ok E.

Lemma set_iter_NoDup (X : gset string) : NoDup (set_iter E X).
Proof. rewrite (Hiter X). apply NoDup_elements. Qed.

Lemma set_iter_elem (X : gset string) (x : string) : x ∈ set_iter E X ↔ x ∈ X.
Proof. rewrite (Hiter X). apply elem_of_elements. Qed.

Lemma set_iter_empty : set_iter E ∅ = [].
Proof.
  apply Permutation_nil_r. rewrite (Hiter ∅). by rewrite elements_empty.
Qed.

Lemma set_iter_length (X : gset string) : length (set_iter E X) = size X.
Proof. by rewrite (Hiter X). Qed.

Lemma set_iter_nil_inv (X : gset string) : set_iter E X = [] → X = ∅.
Proof.
  intros Hnil. apply leibniz_equiv, elem_of_equiv_empty. intros x Hx.
  apply set_iter_elem in Hx. rewrite Hnil in Hx. inversion Hx.
Qed.

End SetIter.

Lemma elements_iter_ok (E : env) : set_iter E = elements → set_iter_ok E.
Proof. intros Heq X. by rewrite Heq. Qed.

Lemma sample_iter_ok live pages results insights :
  set_iter_ok (Sample.world live pages results insights).
Proof. by apply elements_iter_ok. Qed.

(** ** The e-mail extractor *)

Lemma existsb_false_elem {A} (f : A → bool) (l : list A) (x : A) :
  existsb f l = false → x ∈ l → f x = false.
Proof.
  induction l as [|y l IH]; simpl; intros Hf Hx; [inversion Hx|].
  apply orb_false_iff in Hf as [Hy Hl].
  apply elem_of_cons in Hx as [->|Hx]; auto.
Qed.

Lemma foldl_mailto_none (rx : Py.regex) (hrefs : list string) (acc : gset string) :
  Forall (λ h, Py.re_match rx (mailto_address h) = false) hrefs →
  foldl (λ acc h, if Py.re_match rx (mailto_address h)
                  then {[ mailto_address h ]} ∪ acc else acc) acc hrefs = acc.
Proof.
  induction 1 as [|h hrefs Hh _ IH]; simpl; [done|]. by rewrite Hh.
Qed.

Lemma foldl_findall_none (rx : Py.regex) (texts : list string) (acc : gset string) :
  Forall (λ t, Py.findall rx t = []) texts →
  foldl (λ acc t, list_to_set (Py.findall rx t) ∪ acc) acc texts = acc.
Proof.
  induction 1 as [|t texts Ht _ IH]; simpl; [done|].
  rewrite Ht. simpl. by rewrite (left_id_L ∅ (∪)).
Qed.

Section ExtractorFacts.

Variable E : env.

Lemma base_extract_unfold (cfg : Base.config) (url : string) :
  Base.extract_emails_from_page E cfg url =
  match session_get E url with
  | Returned pg =>
      Returned (Py.slice_to (Base.max_emails_per_company cfg)
                  (filter (λ email, Base.ignored cfg email = false)
                          (set_iter E (Base.collect_emails cfg pg))))
  | Raised _ => Returned []
  end.
Proof.
  unfold Base.extract_emails_from_page. by destruct (session_get E url).
Qed.

Lemma agent_extract_unfold (cfg : Agent.config) (url : string) :
  Agent.extract_emails_from_page E cfg url =
  match session_get E url with
  | Returned pg =>
      Returned (Py.slice_to (Agent.max_emails_per_company cfg)
                  (Agent.kept_lower cfg (set_iter E (Agent.collect_emails pg))))
  | Raised _ => Returned []
  end.
Proof.
  unfold Agent.extract_emails_from_page. by destruct (session_get E url).
Qed.

Lemma base_extract_returns cfg url :
  ∃ l, Base.extract_emails_from_page E cfg url = Returned l.
Proof. rewrite base_extract_unfold. destruct (session_get E url); eauto. Qed.

Lemma agent_extract_returns cfg url :
  ∃ l, Agent.extract_emails_from_page E cfg url = Returned l.
Proof. rewrite agent_extract_unfold. destruct (session_get E url); eauto. Qed.

Lemma base_extract_kept cfg url l e :
  Base.extract_emails_from_page E cfg url = Returned l →
  e ∈ l → Base.ignored cfg e = false.
Proof.
  rewrite base_extract_unfold.
  destruct (session_get E url) as [pg|]; intros [= <-] He; [|inversion He].
  apply slice_to_elem, list_elem_of_filter in He. tauto.
Qed.

Lemma kept_lower_elem cfg (l : list string) e :
  e ∈ Agent.kept_lower cfg l →
  ∃ e0, e = Py.lower e0 ∧ e0 ∈ l ∧ Agent.ignored cfg e0 = false.
Proof.
  unfold Agent.kept_lower. intros (e0 & -> & He0)%list_elem_of_fmap.
  apply list_elem_of_filter in He0 as [Hk Hin]. eauto.
Qed.

Lemma kept_lower_is_lower cfg (l : list string) e :
  e ∈ Agent.kept_lower cfg l → Py.lower e = e.
Proof. intros (e0 & -> & _)%kept_lower_elem. apply lower_idemp. Qed.

Lemma agent_extract_kept cfg url l e :
  Agent.extract_emails_from_page E cfg url = Returned l →
  e ∈ l → ∃ e0, e = Py.lower e0 ∧ Agent.ignored cfg e0 = false.
Proof.
  rewrite agent_extract_unfold.
  destruct (session_get E url) as [pg|]; intros [= <-] He; [|inversion He].
  apply slice_to_elem, kept_lower_elem in He as (e0 & -> & _ & Hk). eauto.
Qed.

Lemma base_extract_length cfg url l :
  (0 ≤ Base.max_emails_per_company cfg)%Z →
  Base.extract_emails_from_page E cfg url = Returned l →
  (Z.of_nat (length l) ≤ Base.max_emails_per_company cfg)%Z.
Proof.
  intros Hmax. rewrite base_extract_unfold.
  destruct (session_get E url) as [pg|]; intros [= <-]; [|simpl; lia].
  by apply slice_to_length.
Qed.

Lemma agent_extract_length cfg url l :
  (0 ≤ Agent.max_emails_per_company cfg)%Z →
  Agent.extract_emails_from_page E cfg url = Returned l →
  (Z.of_nat (length l) ≤ Agent.max_emails_per_company cfg)%Z.
Proof.
  intros Hmax. rewrite agent_extract_unfold.
  destruct (session_get E url) as [pg|]; intros [= <-]; [|simpl; lia].
  by apply slice_to_length.
Qed.

Lemma base_collect_nothing cfg pg :
  no_matching_markup (Base.email_regex cfg) true pg → Base.collect_emails cfg pg = ∅.
Proof.
  intros (Htext & Hmail & Hform & Hhint). unfold Base.collect_emails.
  rewrite Htext. simpl.
  rewrite foldl_mailto_none, foldl_findall_none, foldl_findall_none; auto.
Qed.

Lemma agent_collect_nothing pg :
  no_matching_markup Agent.email_regex false pg → Agent.collect_emails pg = ∅.
Proof.
  intros (Htext & Hmail & Hform & _). unfold Agent.collect_emails.
  rewrite Htext. simpl.
  rewrite foldl_mailto_none, foldl_findall_none; auto.
Qed.

End ExtractorFacts.

(** C3. Under a lowercase deny-list and a maximum that is not negative
    (the shipped configurations have both), the list that the extractor
    returns for a page has no address in which a deny-listed pattern
    occurs, letter case ignored, and is no longer than the configured
    maximum.  This holds for the extractor of either variant. *)
Theorem C3_extracted_emails_filtered_and_bounded (E : env) (url : string) :
  (∀ cfg l,
     lowercase_patterns (Base.ignore_email_patterns cfg) →
     (0 ≤ Base.max_emails_per_company cfg)%Z →
     Base.extract_emails_from_page E cfg url = Returned l →
     (∀ e p, e ∈ l → p ∈ Base.ignore_email_patterns cfg → contains_ci p e = false) ∧
     (Z.of_nat (length l) ≤ Base.max_emails_per_company cfg)%Z) ∧
  (∀ cfg l,
     lowercase_patterns (Agent.ignore_email_patterns cfg) →
     (0 ≤ Agent.max_emails_per_company cfg)%Z →
     Agent.extract_emails_from_page E cfg url = Returned l →
     (∀ e p, e ∈ l → p ∈ Agent.ignore_email_patterns cfg → contains_ci p e = false) ∧
     (Z.of_nat (length l) ≤ Agent.max_emails_per_company cfg)%Z).
Proof.
  split; intros cfg l Hlow Hmax Hret; (split; [|eauto using base_extract_length, agent_extract_length]).
  - intros e p He Hp. unfold contains_ci.
    rewrite (proj1 (Forall_forall _ _) Hlow p Hp).
    pose proof (base_extract_kept E cfg url l e Hret He) as Hk.
    apply (existsb_false_elem _ _ p Hk Hp).
  - intros e p He Hp. unfold contains_ci.
    rewrite (proj1 (Forall_forall _ _) Hlow p Hp).
    destruct (agent_extract_kept E cfg url l e Hret He) as (e0 & -> & Hk).
    rewrite lower_idemp. apply (existsb_false_elem _ _ p Hk Hp).
Qed.

Lemma shipped_patterns_lowercase :
  lowercase_patterns (Base.ignore_email_patterns Base.CONFIG) ∧
  lowercase_patterns (Agent.ignore_email_patterns Agent.CONFIG).
Proof. split; repeat constructor. Qed.

Lemma C3_witness :
  (∃ l, Base.extract_emails_from_page Sample.contact_page Base.CONFIG
          "https://acme.com/contact" = Returned l ∧
        (∀ e p, e ∈ l → p ∈ Base.ignore_email_patterns Base.CONFIG →
                contains_ci p e = false) ∧
        (Z.of_nat (length l) ≤ 5)%Z) ∧
  (∃ l, Agent.extract_emails_from_page Sample.contact_page Agent.CONFIG
          "https://acme.com/contact" = Returned l ∧
        (∀ e p, e ∈ l → p ∈ Agent.ignore_email_patterns Agent.CONFIG →
                contains_ci p e = false) ∧
        (Z.of_nat (length l) ≤ 5)%Z).
Proof.
  destruct (C3_extracted_emails_filtered_and_bounded
              Sample.contact_page "https://acme.com/contact") as [HB HA].
  split; eexists; (split; [vm_compute; reflexivity|]).
  - apply HB; [apply shipped_patterns_lowercase | simpl; lia | vm_compute; reflexivity].
  - apply HA; [apply shipped_patterns_lowercase | simpl; lia | vm_compute; reflexivity].
Defined.

(** The second end-to-end scenario of the specification: the system
    mailbox is dropped, the other two addresses come back. *)
Example extract_contact_page :
  ∃ l, Base.extract_emails_from_page Sample.contact_page Base.CONFIG
         "https://acme.com/contact" = Returned l ∧
       l ≡ₚ ["sales@acme.com"; "press@acme.com"].
Proof.
  eexists. split; [vm_compute; reflexivity|].
  first [reflexivity | apply perm_swap].
Qed.

(** C8. The extractor of either variant always returns a list and never
    raises: when fetching or parsing the page raises, it returns the empty
    list, and so it does for a page on which no extraction method finds
    anything. *)
Theorem C8_extractor_never_raises (E : env) (url : string) :
  set_iter_ok E →
  (∀ cfg,
     (∃ l, Base.extract_emails_from_page E cfg url = Returned l) ∧
     (∀ e, session_get E url = Raised e →
           Base.extract_emails_from_page E cfg url = Returned []) ∧
     (∀ pg, session_get E url = Returned pg →
            no_matching_markup (Base.email_regex cfg) true pg →
            Base.extract_emails_from_page E cfg url = Returned [])) ∧
  (∀ cfg,
     (∃ l, Agent.extract_emails_from_page E cfg url = Returned l) ∧
     (∀ e, session_get E url = Raised e →
           Agent.extract_emails_from_page E cfg url = Returned []) ∧
     (∀ pg, session_get E url = Returned pg →
            no_matching_markup Agent.email_regex false pg →
            Agent.extract_emails_from_page E cfg url = Returned [])).
Proof.
  intros Hiter. split; intros cfg; split_and!.
  - apply base_extract_returns.
  - intros e He. by rewrite base_extract_unfold, He.
  - intros pg Hpg Hnone. rewrite base_extract_unfold, Hpg.
    rewrite (base_collect_nothing cfg pg Hnone), (set_iter_empty E Hiter).
    by rewrite filter_nil, slice_to_nil.
  - apply agent_extract_returns.
  - intros e He. by rewrite agent_extract_unfold, He.
  - intros pg Hpg Hnone. rewrite agent_extract_unfold, Hpg.
    rewrite (agent_collect_nothing pg Hnone), (set_iter_empty E Hiter).
    unfold Agent.kept_lower. rewrite filter_nil. simpl. by rewrite slice_to_nil.
Qed.

Lemma C8_witness :
  Base.extract_emails_from_page Sample.contact_page Base.CONFIG
    "https://acme.example/unreachable" = Returned [] ∧
  Base.extract_emails_from_page Sample.contact_page Base.CONFIG
    "https://acme.com" = Returned [] ∧
  Agent.extract_emails_from_page Sample.contact_page Agent.CONFIG
    "https://acme.com" = Returned [].
Proof.
  pose proof (sample_iter_ok ["https://acme.com"]
                [ ("https://acme.com/contact",
                   Page [Link "Sales" "mailto:sales@acme.com"]
                        "Reach us at press@acme.com or noreply@acme.com"
                        ["mailto:sales@acme.com"] [] []);
                  ("https://acme.com", Sample.text_page "Welcome to Acme") ]
                [] ∅) as Hiter.
  split_and!.
  - destruct (C8_extractor_never_raises Sample.contact_page
                "https://acme.example/unreachable" Hiter) as [HB _].
    destruct (HB Base.CONFIG) as (_ & Hraised & _).
    by apply (Hraised (Exception "ConnectionError")).
  - destruct (C8_extractor_never_raises Sample.contact_page
                "https://acme.com" Hiter) as [HB _].
    destruct (HB Base.CONFIG) as (_ & _ & Hnone).
    apply (Hnone (Sample.text_page "Welcome to Acme")); [reflexivity|].
    by repeat split.
  - destruct (C8_extractor_never_raises Sample.contact_page
                "https://acme.com" Hiter) as [_ HA].
    destruct (HA Agent.CONFIG) as (_ & _ & Hnone).
    apply (Hnone (Sample.text_page "Welcome to Acme")); [reflexivity|].
    by repeat split.
Defined.

(** ** The candidate URLs of the domain resolver *)

Lemma append_empty_l (s : string) : "" +:+ s = s.
Proof. reflexivity. Qed.

Lemma append_cons (c : ascii) (s t : string) : String c s +:+ t = String c (s +:+ t).
Proof. reflexivity. Qed.

Lemma append_empty_r (s : string) : s +:+ "" = s.
Proof. induction s as [|c s IH]; [done | by rewrite append_cons, IH]. Qed.

Lemma replace_space_removes (s : string) :
  Py.replace " " "" s = Spec.remove_spaces s.
Proof.
  unfold Spec.remove_spaces. induction s as [|c s IH]; simpl; [done|].
  rewrite filter_cons. destruct (Ascii.eqb_spec c " ") as [->|Hne].
  - rewrite decide_False by (intros H; by apply H). rewrite append_empty_l. exact IH.
  - rewrite decide_True by done. simpl. by rewrite IH.
Qed.

Lemma replace_space_hyphenates (s : string) :
  Py.replace " " "-" s = Spec.hyphenate s.
Proof.
  unfold Spec.hyphenate. induction s as [|c s IH]; simpl; [done|].
  destruct (Ascii.eqb c " "); rewrite IH; reflexivity.
Qed.

Lemma join_empty_cons (w : string) (ws : list string) :
  Py.join "" (w :: ws) = w +:+ Py.join "" ws.
Proof.
  destruct ws as [|w' ws]; [|done].
  change (w = w +:+ ""). by rewrite append_empty_r.
Qed.

Lemma initials_cons_word (w : string) (ws : list string) :
  Py.join "" (first_letter <$> Py.cons_word w ws) =
  first_letter w +:+ Py.join "" (first_letter <$> ws).
Proof.
  destruct w; [done|]. unfold Py.cons_word. rewrite fmap_cons.
  apply join_empty_cons.
Qed.

(** The two readings of the words after a position: [split_aux] against
    [initials]. *)
Lemma split_aux_initials (s : string) :
  Spec.initials true s =
    first_letter (Py.split_aux s).1 +:+ Py.join "" (first_letter <$> (Py.split_aux s).2) ∧
  Spec.initials false s = Py.join "" (first_letter <$> (Py.split_aux s).2).
Proof.
  induction s as [|c s [IHt IHf]]; simpl; [done|].
  destruct (Py.split_aux s) as [w ws]. simpl in *.
  destruct (Py.is_space c); simpl.
  - by rewrite initials_cons_word.
  - by rewrite IHf.
Qed.

Lemma split_initials (s : string) :
  Py.join "" (first_letter <$> Py.split s) = Spec.initials true s.
Proof.
  destruct (split_aux_initials s) as [Ht _]. unfold Py.split.
  destruct (Py.split_aux s) as [w ws]. simpl in Ht.
  by rewrite initials_cons_word.
Qed.

(** The three base names of the source are the three variants of the
    specification. *)
Lemma base_names_variants (company_name : string) :
  Base.base_names company_name = Spec.three_variants company_name.
Proof.
  unfold Base.base_names, Spec.three_variants, Spec.compact, Spec.hyphenated, Spec.acronym.
  by rewrite replace_space_removes, replace_space_hyphenates, split_initials.
Qed.

(** The AI-augmented source has a fourth one. *)
Lemma name_variations_variants (company_name : string) :
  Agent.name_variations company_name ≡ₚ
  Spec.three_variants company_name ++ [Spec.spelled_out company_name].
Proof.
  unfold Agent.name_variations, Spec.three_variants, Spec.spelled_out,
         Spec.compact, Spec.hyphenated, Spec.acronym.
  rewrite replace_space_removes, replace_space_hyphenates, split_initials. simpl.
  do 2 apply perm_skip. apply perm_swap.
Qed.

Lemma in_cross_list (variants tlds : list string) (url : string) :
  Spec.in_cross variants tlds url ↔ url ∈ Spec.cross variants tlds.
Proof.
  unfold Spec.in_cross, Spec.cross. split.
  - intros (name & domain & prefix & Hn & Hd & Hp & ->).
    apply list_elem_of_bind. exists name. split; [|done].
    apply list_elem_of_bind. exists domain. split; [|done].
    apply list_elem_of_bind. exists prefix. split; [|done].
    apply list_elem_of_singleton. done.
  - intros (name & Hin & Hn)%list_elem_of_bind.
    apply list_elem_of_bind in Hin as (domain & Hin & Hd).
    apply list_elem_of_bind in Hin as (prefix & Hin & Hp).
    apply list_elem_of_singleton in Hin. eauto 10.
Qed.

Lemma in_cross_perm (vs vs' tlds : list string) (url : string) :
  vs ≡ₚ vs' → Spec.in_cross vs tlds url ↔ Spec.in_cross vs' tlds url.
Proof.
  intros Hperm. unfold Spec.in_cross.
  split; intros (name & domain & prefix & Hn & H); exists name, domain, prefix;
    (split; [|exact H]); [by rewrite <- Hperm | by rewrite Hperm].
Qed.

Lemma variations_inner (name : string) (domains : list string) (acc : gset string) (url : string) :
  url ∈ foldl (λ acc domain,
                 {[ "https://www." +:+ name +:+ "." +:+ domain ]} ∪
                 ({[ "https://" +:+ name +:+ "." +:+ domain ]} ∪ acc)) acc domains ↔
  url ∈ acc ∨
  ∃ domain prefix, domain ∈ domains ∧ prefix ∈ [""; "www."] ∧
                   url = "https://" +:+ prefix +:+ name +:+ "." +:+ domain.
Proof.
  revert acc. induction domains as [|d ds IH]; intros acc; simpl.
  - split; [auto | intros [H | (d & p & Hd & _)]; [done | inversion Hd]].
  - rewrite IH. rewrite !elem_of_union, !elem_of_singleton. split.
    + intros [[-> | [-> | H]] | (d' & p & Hd & Hp & ->)].
      * right. exists d, "www.". split_and!; [left | repeat constructor | done].
      * right. exists d, "". split_and!; [left | repeat constructor | done].
      * by left.
      * right. exists d', p. split_and!; [by right | done | done].
    + intros [H | (d' & p & Hd & Hp & ->)]; [by left; right; right|].
      apply elem_of_cons in Hd as [-> | Hd].
      * left. apply elem_of_cons in Hp as [-> | Hp]; [by right; left|].
        apply list_elem_of_singleton in Hp as ->. by left.
      * right. eauto.
Qed.

Lemma variations_outer (names domains : list string) (acc : gset string) (url : string) :
  url ∈ foldl (λ acc name,
                 foldl (λ acc domain,
                          {[ "https://www." +:+ name +:+ "." +:+ domain ]} ∪
                          ({[ "https://" +:+ name +:+ "." +:+ domain ]} ∪ acc))
                       acc domains) acc names ↔
  url ∈ acc ∨ Spec.in_cross names domains url.
Proof.
  revert acc. induction names as [|n ns IH]; intros acc; simpl.
  - split; [auto | intros [H | (n & d & p & Hn & _)]; [done | inversion Hn]].
  - rewrite IH, variations_inner. unfold Spec.in_cross. split.
    + intros [[H | (d & p & Hd & Hp & ->)] | (n' & d & p & Hn & H)].
      * by left.
      * right. exists n, d, p. split_and!; [left | done..].
      * right. exists n', d, p. split; [by right | done].
    + intros [H | (n' & d & p & Hn & Hd & Hp & ->)]; [by left; left|].
      apply elem_of_cons in Hn as [-> | Hn].
      * left. right. eauto.
      * right. exists n', d, p. done.
Qed.

Lemma variations_cross (cfg : Base.config) (company_name url : string) :
  url ∈ Base.variations cfg company_name ↔
  Spec.in_cross (Spec.three_variants company_name) (Base.email_domains cfg) url.
Proof.
  unfold Base.variations. rewrite variations_outer, base_names_variants.
  split; [intros [H | H]; [set_solver | done] | auto].
Qed.

Lemma candidate_urls_cross (cfg : Agent.config) (company_name url : string) :
  url ∈ Agent.candidate_urls cfg company_name ↔
  Spec.in_cross (Spec.three_variants company_name ++ [Spec.spelled_out company_name])
                (Agent.email_domains cfg) url.
Proof.
  rewrite <- (in_cross_perm _ _ _ _ (name_variations_variants company_name)).
  by rewrite in_cross_list.
Qed.

Lemma probe_first_requests (E : env) (urls : list string) (st : state) (url : string) :
  url ∈ head_requests (probe_first E urls st).2 →
  url ∈ head_requests st ∨ url ∈ urls.
Proof.
  revert st. induction urls as [|u rest IH]; intros st; simpl; [auto|].
  destruct (check_url_exists_returns E u st) as (b & st1 & H1).
  rewrite (bind_returned _ _ _ _ _ H1).
  assert (url ∈ head_requests st1 → url ∈ head_requests st ∨ url = u) as Hstep.
  { destruct (decide (u ∈ processed_urls st)) as [Hin|Hnin].
    - rewrite check_url_exists_hit in H1 by done. injection H1 as _ <-. auto.
    - rewrite check_url_exists_miss in H1 by done. injection H1 as _ <-. simpl.
      intros [H | H]%elem_of_app; [auto|].
      apply list_elem_of_singleton in H. auto. }
  destruct b; simpl.
  - intros H. destruct (Hstep H) as [? | ->]; [auto | right; left].
  - intros H. destruct (IH st1 H) as [H' | H']; [|right; by right].
    destruct (Hstep H') as [? | ->]; [auto | right; left].
Qed.

(** C6, as amended.  The candidate URLs of the pattern phase are exactly
    the cross product of the name variants with the configured top-level
    domains and the prefixes [""] and ["www."], and the phase sends no
    HEAD request for any other URL.  The base variant has the three name
    variants of the specification; the AI-augmented variant has a fourth,
    the first one with ["&"] replaced by ["and"]. *)
Theorem C6_candidates_are_the_cross_product (E : env) (company_name : string) :
  set_iter_ok E →
  (∀ cfg,
     (∀ url, url ∈ Base.variations cfg company_name ↔
             Spec.in_cross (Spec.three_variants company_name)
                           (Base.email_domains cfg) url) ∧
     (∀ st url,
        url ∈ head_requests (Base.pattern_phase E cfg company_name st).2 →
        url ∈ head_requests st ∨
        Spec.in_cross (Spec.three_variants company_name)
                      (Base.email_domains cfg) url)) ∧
  (∀ cfg,
     (∀ url, url ∈ Agent.candidate_urls cfg company_name ↔
             Spec.in_cross (Spec.three_variants company_name ++
                            [Spec.spelled_out company_name])
                           (Agent.email_domains cfg) url) ∧
     (∀ st url,
        url ∈ head_requests (Agent.pattern_phase E cfg company_name st).2 →
        url ∈ head_requests st ∨
        Spec.in_cross (Spec.three_variants company_name ++
                       [Spec.spelled_out company_name])
                      (Agent.email_domains cfg) url)).
Proof.
  intros Hiter. split; intros cfg; split.
  - apply variations_cross.
  - intros st url [H | H]%probe_first_requests; [by left | right].
    by apply variations_cross, (set_iter_elem E Hiter).
  - apply candidate_urls_cross.
  - intros st url [H | H]%probe_first_requests; [by left | right].
    by apply candidate_urls_cross.
Qed.

Lemma C6_witness :
  Spec.in_cross (Spec.three_variants "Acme Corp")
                (Base.email_domains Base.CONFIG) "https://www.acme-corp.io" ∧
  Spec.in_cross (Spec.three_variants "Johnson & Johnson" ++
                 [Spec.spelled_out "Johnson & Johnson"])
                (Agent.email_domains Agent.CONFIG) "https://johnsonandjohnson.com".
Proof.
  split.
  - destruct (C6_candidates_are_the_cross_product Sample.silent "Acme Corp"
                (sample_iter_ok [] [] [] ∅)) as [HB _].
    destruct (HB Base.CONFIG) as [Hset _].
    apply (proj1 (Hset "https://www.acme-corp.io")).
    apply (bool_decide_unpack _). vm_compute. exact I.
  - destruct (C6_candidates_are_the_cross_product Sample.silent "Johnson & Johnson"
                (sample_iter_ok [] [] [] ∅)) as [_ HA].
    destruct (HA Agent.CONFIG) as [Hset _].
    apply (proj1 (Hset "https://johnsonandjohnson.com")).
    apply (bool_decide_unpack _). vm_compute. exact I.
Defined.

(** The candidate set of the AI-augmented variant is not the cross
    product of the three variants: for a name with an ampersand it has the
    URLs of the spelled-out variant as well. *)
Lemma C6_counterexample :
  ¬ (∀ url, url ∈ Agent.candidate_urls Agent.CONFIG "Johnson & Johnson" ↔
            Spec.in_cross (Spec.three_variants "Johnson & Johnson")
                          (Agent.email_domains Agent.CONFIG) url).
Proof.
  intros Hall.
  assert ("https://johnsonandjohnson.com" ∈
          Agent.candidate_urls Agent.CONFIG "Johnson & Johnson") as Hin.
  { apply (bool_decide_unpack _). vm_compute. exact I. }
  apply Hall, in_cross_list in Hin. revert Hin.
  apply (bool_decide_eq_false _). vm_compute. reflexivity.
Qed.

(** The first end-to-end scenario of the specification: when only
    [https://acmecorp.com] answers, the resolver returns it. *)
Example resolve_acme_corp :
  (Base.get_company_domain
     (Sample.world ["https://acmecorp.com"] [] [] ∅) Base.CONFIG "Acme Corp" fresh).1 =
  Returned (Some "https://acmecorp.com").
Proof. vm_compute. reflexivity. Qed.

(** ** The lead assembler *)

Lemma bind_inv {A B} (m : M A) (f : A → M B) (st : state) (b : B) (st' : state) :
  (m ≫= f) st = (Returned b, st') →
  ∃ a st1, m st = (Returned a, st1) ∧ f a st1 = (Returned b, st').
Proof.
  unfold mbind, M_bind. destruct (m st) as [[a|e] st1]; [eauto | discriminate].
Qed.

Lemma lift_inv {A} (o : outcome A) (st : state) (a : A) (st' : state) :
  lift o st = (Returned a, st') → o = Returned a ∧ st' = st.
Proof. unfold lift. by intros [= -> ->]. Qed.

Lemma ret_inv {A} (a b : A) (st st' : state) :
  (mret a : M A) st = (Returned b, st') → a = b ∧ st' = st.
Proof. unfold mret, M_ret. by intros [= -> ->]. Qed.

Lemma try_except_inv {A} (body : M A) (handler : exn → M A) st a st' :
  try_except body handler st = (Returned a, st') →
  body st = (Returned a, st') ∨
  ∃ e st1, body st = (Raised e, st1) ∧ handler e st1 = (Returned a, st').
Proof.
  unfold try_except. destruct (body st) as [[a0|e] st1]; [auto | eauto].
Qed.

Section AssemblerFacts.

Variable E : env.
Hypothesis Hiter : set_iter_ok E.

Lemma base_extract_NoDup cfg url l :
  Base.extract_emails_from_page E cfg url = Returned l → NoDup l.
Proof.
  rewrite base_extract_unfold.
  destruct (session_get E url) as [pg|]; intros [= <-]; [|constructor].
  apply slice_to_NoDup, NoDup_filter, (set_iter_NoDup E Hiter).
Qed.

Lemma deeper_search_NoDup cfg website pages st l st' :
  Base.deeper_search E cfg website pages st = (Returned l, st') → NoDup l.
Proof.
  revert st. induction pages as [|p rest IH]; intros st; simpl.
  - intros [<- _]%ret_inv. constructor.
  - intros (ok & st1 & _ & Hrest)%bind_inv. destruct ok; [|eauto].
    apply bind_inv in Hrest as (deeper & st2 & [Hex ->]%lift_inv & Hrest).
    destruct deeper as [|e deeper]; [eauto|].
    apply ret_inv in Hrest as [<- _]. by eapply base_extract_NoDup.
Qed.

(** Every record of the base variant is the dictionary [result] of a
    list of addresses without repetition. *)
Lemma base_record_shape cfg company_name service_category st r st' :
  Base.get_company_info E cfg company_name service_category st = (Returned (Some r), st') →
  ∃ website linkedin all_emails contact_page,
    r = Base.result E company_name website linkedin service_category
                    all_emails contact_page ∧
    NoDup all_emails.
Proof.
  unfold Base.get_company_info.
  intros (found & st1 & _ & H)%bind_inv.
  destruct (Py.truthy found); [|by apply ret_inv in H as [[=] _]].
  apply bind_inv in H as (linkedin & st2 & _ & H).
  apply bind_inv in H as (contact_page & st3 & _ & H).
  apply bind_inv in H as (gathered & st4 & _ & H).
  apply bind_inv in H as (extra & st5 & Hextra & H).
  apply ret_inv in H as [[= <-] _].
  eexists _, _, _, _. split; [reflexivity|].
  pose proof (set_iter_NoDup E Hiter (list_to_set gathered)) as Hnd.
  destruct (set_iter E (list_to_set gathered)) as [|e l]; simpl.
  - by eapply deeper_search_NoDup.
  - apply ret_inv in Hextra as [<- _]. by rewrite app_nil_r.
Qed.

Lemma api_email_set_lower cfg results e :
  e ∈ Agent.api_email_set cfg results → Py.lower e = e.
Proof.
  unfold Agent.api_email_set.
  assert (∀ acc : gset string,
            (∀ x, x ∈ acc → Py.lower x = x) →
            e ∈ foldl (λ acc r,
                         match result_content r with
                         | Some content =>
                             list_to_set (Agent.kept_lower cfg
                                            (Py.findall Agent.email_regex content)) ∪ acc
                         | None => acc
                         end) acc results →
            Py.lower e = e) as Hgen.
  { induction results as [|r rest IH]; intros acc Hacc; simpl; [auto|].
    apply IH. destruct (result_content r) as [content|]; [|done].
    intros x [Hx | Hx]%elem_of_union; [|auto].
    apply elem_of_list_to_set in Hx. by eapply kept_lower_is_lower. }
  apply Hgen. set_solver.
Qed.

Lemma search_emails_lower cfg company_name domain st l st' :
  Agent.search_emails_with_api E cfg company_name domain st = (Returned l, st') →
  ∀ e, e ∈ l → Py.lower e = e.
Proof.
  unfold Agent.search_emails_with_api.
  intros (dom & st1 & _ & H)%bind_inv.
  destruct (Py.truthy dom);
    [|apply ret_inv in H as [<- _]; intros e He; inversion He].
  apply lift_inv in H as [H _].
  destruct (search_tool E _) as [results|ex]; simpl in H; injection H as <-;
    intros e He; [|inversion He].
  apply slice_to_elem, (set_iter_elem E Hiter) in He.
  by eapply api_email_set_lower.
Qed.

Lemma agent_extract_lower cfg url l :
  Agent.extract_emails_from_page E cfg url = Returned l →
  ∀ e, e ∈ l → Py.lower e = e.
Proof.
  intros Hret e He.
  destruct (agent_extract_kept E cfg url l e Hret He) as (e0 & -> & _).
  apply lower_idemp.
Qed.

(** Every record of the AI-augmented variant is the dictionary [result]
    of a set of lowercase addresses and of the insight that
    [ai_enhance_company_info] returned. *)
Lemma agent_record_shape cfg services company_name service_name st r st' :
  Agent.get_company_info E cfg services company_name service_name st
    = (Returned (Some r), st') →
  ∃ website service_description emails ai_insights,
    r = Agent.result E cfg company_name website service_name service_description
                     emails ai_insights ∧
    Agent.ai_enhance_company_info E services company_name service_name
      = Returned ai_insights ∧
    (∀ e, e ∈ emails → Py.lower e = e).
Proof.
  unfold Agent.get_company_info.
  intros (found & st1 & _ & H)%bind_inv.
  destruct (Py.truthy found); [|by apply ret_inv in H as [[=] _]].
  apply bind_inv in H as (ai_insights & st2 & [Hins _]%lift_inv & H).
  apply bind_inv in H as (api_emails & st3 & Hapi & H).
  apply bind_inv in H as (emails & st4 & Hemails & H).
  apply bind_inv in H as (descr & st5 & _ & H).
  apply ret_inv in H as [[= <-] _].
  eexists _, _, _, _. split_and!; [reflexivity | exact Hins |].
  pose proof (search_emails_lower _ _ _ _ _ _ Hapi) as Hlow.
  assert (∀ e, e ∈ (list_to_set api_emails : gset string) → Py.lower e = e) as Hset.
  { intros e He%elem_of_list_to_set. auto. }
  destruct (Z.of_nat (size (list_to_set api_emails : gset string))
              <? Agent.max_emails_per_company cfg)%Z;
    [|by apply ret_inv in Hemails as [<- _]].
  apply bind_inv in Hemails as (contact_page & st6 & _ & Hemails).
  destruct (Py.truthy contact_page); [|by apply ret_inv in Hemails as [<- _]].
  apply bind_inv in Hemails as (scraped & st7 & [Hex _]%lift_inv & Hemails).
  apply ret_inv in Hemails as [<- _].
  intros e [He | He%elem_of_list_to_set]%elem_of_union; [auto|].
  by eapply agent_extract_lower.
Qed.

End AssemblerFacts.

(** *** The fields of a record *)

Section Fields.

Variable E : env.

Lemma base_result_emails n w li c es cp :
  emails_of (Base.result E n w li c es cp) = Some es.
Proof. reflexivity. Qed.

Lemma base_result_count n w li c es cp :
  Base.result E n w li c es cp !! "email_count" = Some (VInt (Z.of_nat (length es))).
Proof. reflexivity. Qed.

Lemma base_result_status n w li c es cp :
  Base.result E n w li c es cp !! "status" =
  Some (VStr (match es with [] => "No emails found" | _ => "Success" end)).
Proof. reflexivity. Qed.

Lemma agent_result_own_key cfg n w s d (es : gset string) (ins : gmap string json) k :
  ins !! k = None →
  Agent.result E cfg n w s d es ins !! k = Agent.result E cfg n w s d es ∅ !! k.
Proof.
  intros Hk. unfold Agent.result.
  rewrite lookup_union_r by (by rewrite lookup_fmap, Hk).
  rewrite fmap_empty. by rewrite (left_id_L ∅ (∪)).
Qed.

Lemma agent_result_emails cfg n w s d (es : gset string) ins :
  ins !! "emails" = None →
  emails_of (Agent.result E cfg n w s d es ins) =
  Some (Py.slice_to (Agent.max_emails_per_company cfg) (set_iter E es)).
Proof.
  intros Hk. unfold emails_of. rewrite agent_result_own_key by done. reflexivity.
Qed.

Lemma agent_result_count cfg n w s d (es : gset string) ins :
  ins !! "email_count" = None →
  Agent.result E cfg n w s d es ins !! "email_count" = Some (VInt (Z.of_nat (size es))).
Proof. intros Hk. rewrite agent_result_own_key by done. reflexivity. Qed.

Lemma agent_result_status cfg n w s d (es : gset string) ins :
  ins !! "status" = None →
  Agent.result E cfg n w s d es ins !! "status" =
  Some (VStr (if bool_decide (es = ∅) then "Partial" else "Success")).
Proof. intros Hk. rewrite agent_result_own_key by done. reflexivity. Qed.

(** A key of the insight wins over the literal's. *)
Lemma agent_result_insight_key cfg n w s d (es : gset string) ins k j :
  ins !! k = Some j →
  Agent.result E cfg n w s d es ins !! k = Some (of_json j).
Proof.
  intros Hk. unfold Agent.result.
  apply lookup_union_Some_l. by rewrite lookup_fmap, Hk.
Qed.

End Fields.

(** *** What holds of every record *)

(** X20. Base variant: the count is the number of listed addresses, and
    the status says whether there is one. *)
Lemma produced_inv {A} (run : outcome (option A) * state) (r : A) :
  produced run = Some r → ∃ st', run = (Returned (Some r), st').
Proof.
  unfold produced. destruct run as [[[a|]|e] st']; simpl; intros [= <-]. eauto.
Qed.

Lemma base_record_count_and_status (E : env) cfg company_name service_category st r :
  set_iter_ok E →
  produced (Base.get_company_info E cfg company_name service_category st) = Some r →
  ∃ l, emails_of r = Some l ∧
       r !! "email_count" = Some (VInt (Z.of_nat (length l))) ∧
       r !! "status" = Some (VStr (match l with [] => "No emails found" | _ => "Success" end)).
Proof.
  intros Hiter [st' Hrun]%produced_inv.
  apply (base_record_shape E Hiter) in Hrun as (w & li & l & cp & -> & _).
  exists l. split_and!; reflexivity.
Qed.

(** X21. AI-augmented variant, for an insight that brings none of the
    three keys: at most the maximum is listed, the count is the size of the
    whole set, and the status says whether the set is empty. *)
Lemma agent_record_count_and_status (E : env) cfg services company_name service_name st r :
  set_iter_ok E →
  (0 ≤ Agent.max_emails_per_company cfg)%Z →
  produced (Agent.get_company_info E cfg services company_name service_name st) = Some r →
  (∀ ins, Agent.ai_enhance_company_info E services company_name service_name = Returned ins →
          ins !! "emails" = None ∧ ins !! "email_count" = None ∧ ins !! "status" = None) →
  ∃ (l : list string) (emails : gset string),
    emails_of r = Some l ∧
    l = Py.slice_to (Agent.max_emails_per_company cfg) (set_iter E emails) ∧
    (Z.of_nat (length l) ≤ Agent.max_emails_per_company cfg)%Z ∧
    r !! "email_count" = Some (VInt (Z.of_nat (size emails))) ∧
    (length l ≤ size emails)%nat ∧
    r !! "status" = Some (VStr (if bool_decide (emails = ∅) then "Partial" else "Success")).
Proof.
  intros Hiter Hmax [st' Hrun]%produced_inv Hkeys.
  apply (agent_record_shape E Hiter) in Hrun as (w & d & emails & ins & -> & Hins & _).
  destruct (Hkeys ins Hins) as (He & Hc & Hs).
  eexists _, emails. split_and!.
  - by apply agent_result_emails.
  - reflexivity.
  - by apply slice_to_length.
  - by apply agent_result_count.
  - rewrite <- (set_iter_length E Hiter emails).
    apply sublist_length, slice_to_sublist.
  - by apply agent_result_status.
Qed.

(** C2.  The base variant caps the addresses of each page, not those of
    the record: a site whose home page and contact page give five
    addresses each yields a record that lists ten, with a configured
    maximum of five. *)
Theorem C2_base_record_lists_more_than_maximum :
  listed (Base.get_company_info Sample.two_pages Base.CONFIG "Acme" "analytics" fresh)
    = Some [ "a3@acme.com"; "a5@acme.com"; "a1@acme.com"; "a2@acme.com"; "a4@acme.com";
             "b3@acme.com"; "b5@acme.com"; "b1@acme.com"; "b2@acme.com"; "b4@acme.com" ] ∧
  Base.max_emails_per_company Base.CONFIG = 5%Z.
Proof. split; vm_compute; reflexivity. Qed.

(** C4, as amended.  The addresses listed in a record are pairwise
    distinct as strings.  In the AI-augmented variant, whose addresses are
    all lowercase, they are also pairwise distinct when letter case is
    ignored; this is stated for an insight that has no ['emails'] key. *)
Theorem C4_emails_deduplicated (E : env) :
  set_iter_ok E →
  (∀ cfg company_name service_category st r,
     produced (Base.get_company_info E cfg company_name service_category st) = Some r →
     ∃ l, emails_of r = Some l ∧ NoDup l) ∧
  (∀ cfg services company_name service_name st r,
     produced (Agent.get_company_info E cfg services company_name service_name st)
       = Some r →
     (∀ ins, Agent.ai_enhance_company_info E services company_name service_name
               = Returned ins → ins !! "emails" = None) →
     ∃ l, emails_of r = Some l ∧ NoDup l ∧ distinct_ci l).
Proof.
  intros Hiter. split.
  - intros cfg n c st r [st' Hrun]%produced_inv.
    apply (base_record_shape E Hiter) in Hrun as (w & li & l & cp & -> & Hnd).
    by exists l.
  - intros cfg sv n s st r [st' Hrun]%produced_inv Hkey.
    apply (agent_record_shape E Hiter) in Hrun as (w & d & emails & ins & -> & Hins & Hlow).
    eexists. split; [by apply agent_result_emails, Hkey|].
    assert (NoDup (Py.slice_to (Agent.max_emails_per_company cfg) (set_iter E emails)))
      as Hnd by apply slice_to_NoDup, (set_iter_NoDup E Hiter).
    split; [done|]. unfold distinct_ci.
    rewrite fmap_lower_fixed; [done|].
    intros e He.
    by apply Hlow, (set_iter_elem E Hiter), (slice_to_elem (Agent.max_emails_per_company cfg)).
Qed.

Lemma C4_witness :
  (∃ r l,
     produced (Base.get_company_info Sample.two_pages Base.CONFIG
                 "Acme" "analytics" fresh) = Some r ∧
     emails_of r = Some l ∧ NoDup l) ∧
  (∃ r l,
     produced (Agent.get_company_info Sample.api_and_page Agent.CONFIG Agent.SERVICES
                 "Acme" "CRM Strategy" fresh) = Some r ∧
     emails_of r = Some l ∧ NoDup l ∧ distinct_ci l).
Proof.
  split.
  - destruct (C4_emails_deduplicated Sample.two_pages
                (elements_iter_ok Sample.two_pages eq_refl)) as [HB _].
    assert (is_Some (produced (Base.get_company_info Sample.two_pages Base.CONFIG
                                 "Acme" "analytics" fresh))) as [r Hrun]
      by (apply (bool_decide_unpack _); vm_compute; exact I).
    destruct (HB _ _ _ _ _ Hrun) as (l & Hl & Hnd).
    exists r, l. split_and!; [exact Hrun | exact Hl | exact Hnd].
  - destruct (C4_emails_deduplicated Sample.api_and_page
                (elements_iter_ok Sample.api_and_page eq_refl)) as [_ HA].
    assert (is_Some (produced (Agent.get_company_info Sample.api_and_page Agent.CONFIG
                                 Agent.SERVICES "Acme" "CRM Strategy" fresh))) as [r Hrun]
      by (apply (bool_decide_unpack _); vm_compute; exact I).
    destruct (HA _ _ _ _ _ _ Hrun) as (l & Hl & Hnd & Hci).
    { intros ins Hins. vm_compute in Hins. injection Hins as <-. reflexivity. }
    exists r, l. split_and!; [exact Hrun | exact Hl | exact Hnd | exact Hci].
Defined.

(** The base variant keeps two spellings of one mailbox that differ in
    letter case only. *)
Lemma C4_counterexample :
  listed (Base.get_company_info Sample.two_spellings Base.CONFIG
            "Acme" "analytics" fresh) = Some ["bob@acme.com"; "Bob@acme.com"] ∧
  ¬ distinct_ci ["bob@acme.com"; "Bob@acme.com"].
Proof.
  split; [vm_compute; reflexivity|].
  apply (bool_decide_eq_false _). vm_compute. reflexivity.
Qed.

(** C7.  In the AI-augmented variant the keys of the language model's
    reply are written over those of the record: with a reply that has a
    ['status'] of its own, a record without any address has the status
    ["Success"]. *)
Theorem C7_insight_overrides_status :
  listed (Agent.get_company_info Sample.own_status Agent.CONFIG Agent.SERVICES
            "Acme" "CRM Strategy" fresh) = Some [] ∧
  field "email_count"
        (Agent.get_company_info Sample.own_status Agent.CONFIG Agent.SERVICES
           "Acme" "CRM Strategy" fresh) = Some (VInt 0) ∧
  field "status"
        (Agent.get_company_info Sample.own_status Agent.CONFIG Agent.SERVICES
           "Acme" "CRM Strategy" fresh) = Some (VStr "Success").
Proof. split_and!; vm_compute; reflexivity. Qed.

(** C10.  In the AI-augmented variant the count is taken from the whole
    set and the list from its first five elements: with four addresses
    from the search API and five more on the contact page the record
    counts nine and lists five. *)
Theorem C10_agent_count_exceeds_listed :
  listed (Agent.get_company_info Sample.api_and_page Agent.CONFIG Agent.SERVICES
            "Acme" "CRM Strategy" fresh)
    = Some ["a3@acme.com"; "a1@acme.com"; "a2@acme.com"; "a4@acme.com"; "b3@acme.com"] ∧
  field "email_count"
        (Agent.get_company_info Sample.api_and_page Agent.CONFIG Agent.SERVICES
           "Acme" "CRM Strategy" fresh) = Some (VInt 9).
Proof. split; vm_compute; reflexivity. Qed.

(** * Further properties of the pipeline *)

(** ** Methods that never raise *)

Lemma returns_ret {A} (a : A) : returns (mret a : M A).
Proof. intros st. by eexists _, _. Qed.

Lemma returns_lift {A} (o : outcome A) : (∃ a, o = Returned a) → returns (lift o).
Proof. intros [a ->] st. by eexists _, _. Qed.

Lemma returns_bind {A B} (m : M A) (f : A → M B) :
  returns m → (∀ a, returns (f a)) → returns (m ≫= f).
Proof.
  intros Hm Hf st. destruct (Hm st) as (a & st1 & H1).
  rewrite (bind_returned _ _ _ _ _ H1). apply Hf.
Qed.

Lemma returns_try {A} (body : M A) (handler : exn → M A) :
  (∀ e, returns (handler e)) → returns (try_except body handler).
Proof.
  intros Hh st. unfold try_except.
  destruct (body st) as [[a|e] st1]; [by eexists _, _ | apply Hh].
Qed.

Lemma catch_returns {A} (body : outcome A) (handler : exn → outcome A) :
  (∀ e, ∃ a, handler e = Returned a) → ∃ a, catch body handler = Returned a.
Proof. intros Hh. destruct body as [a|e]; simpl; eauto. Qed.

(** ** Methods under which the state only grows *)

Lemma extends_refl (st : state) : extends st st.
Proof. split; [exists []; by rewrite app_nil_r | done]. Qed.

Lemma extends_trans (st1 st2 st3 : state) :
  extends st1 st2 → extends st2 st3 → extends st1 st3.
Proof.
  intros [[k1 H1] Hs1] [[k2 H2] Hs2]. split; [|set_solver].
  exists (k1 ++ k2). by rewrite H2, H1, (assoc_L (++)).
Qed.

Lemma monotone_ret {A} (a : A) : monotone (mret a : M A).
Proof. intros st. apply extends_refl. Qed.

Lemma monotone_lift {A} (o : outcome A) : monotone (lift o).
Proof. intros st. apply extends_refl. Qed.

Lemma monotone_bind {A B} (m : M A) (f : A → M B) :
  monotone m → (∀ a, monotone (f a)) → monotone (m ≫= f).
Proof.
  intros Hm Hf st. specialize (Hm st). unfold mbind, M_bind.
  destruct (m st) as [[a|e] st1]; [|done].
  eapply extends_trans; [exact Hm | apply Hf].
Qed.

Lemma monotone_try {A} (body : M A) (handler : exn → M A) :
  monotone body → (∀ e, monotone (handler e)) → monotone (try_except body handler).
Proof.
  intros Hb Hh st. specialize (Hb st). unfold try_except.
  destruct (body st) as [[a|e] st1]; [done|].
  eapply extends_trans; [exact Hb | apply Hh].
Qed.

Lemma monotone_check (E : env) url : monotone (check_url_exists E url).
Proof.
  intros st. destruct (decide (url ∈ processed_urls st)) as [Hin|Hnin].
  - rewrite check_url_exists_hit by done. apply extends_refl.
  - rewrite check_url_exists_miss by done. split; simpl; [by exists [url] | set_solver].
Qed.

Section Growth.

Variable E : env.

Lemma returns_check url : returns (check_url_exists E url).
Proof. intros st. apply check_url_exists_returns. Qed.

Lemma returns_probe_first urls : returns (probe_first E urls).
Proof.
  induction urls as [|url rest IH]; simpl; [apply returns_ret|].
  apply returns_bind; [apply returns_check|].
  intros [|]; [apply returns_ret | apply IH].
Qed.

Lemma monotone_probe_first urls : monotone (probe_first E urls).
Proof.
  induction urls as [|url rest IH]; simpl; [apply monotone_ret|].
  apply monotone_bind; [apply monotone_check|].
  intros [|]; [apply monotone_ret | apply IH].
Qed.

Lemma returns_search_links ls : returns (Base.search_links E ls).
Proof.
  induction ls as [|l rest IH]; simpl; [apply returns_ret|].
  case_match; [|apply IH].
  apply returns_bind; [apply returns_check|].
  intros [|]; [apply returns_ret | apply IH].
Qed.

Lemma monotone_search_links ls : monotone (Base.search_links E ls).
Proof.
  induction ls as [|l rest IH]; simpl; [apply monotone_ret|].
  case_match; [|apply IH].
  apply monotone_bind; [apply monotone_check|].
  intros [|]; [apply monotone_ret | apply IH].
Qed.

Lemma returns_base_domain cfg company_name :
  returns (Base.get_company_domain E cfg company_name).
Proof.
  apply returns_bind; [apply returns_probe_first|].
  intros [url|]; [apply returns_ret|].
  apply returns_try. intros. apply returns_ret.
Qed.

Lemma monotone_base_domain cfg company_name :
  monotone (Base.get_company_domain E cfg company_name).
Proof.
  apply monotone_bind; [apply monotone_probe_first|].
  intros [url|]; [apply monotone_ret|].
  apply monotone_try; [|intros; apply monotone_ret].
  apply monotone_bind; [apply monotone_lift | intros; apply monotone_search_links].
Qed.

Lemma returns_base_contact cfg base_url :
  returns (Base.find_contact_page E cfg base_url).
Proof.
  apply returns_bind; [apply returns_probe_first|].
  intros [url|]; [apply returns_ret|].
  apply returns_try. intros. apply returns_ret.
Qed.

Lemma monotone_base_contact cfg base_url :
  monotone (Base.find_contact_page E cfg base_url).
Proof.
  apply monotone_bind; [apply monotone_probe_first|].
  intros [url|]; [apply monotone_ret|].
  apply monotone_try; [|intros; apply monotone_ret].
  apply monotone_bind; [apply monotone_lift | intros; apply monotone_probe_first].
Qed.

Lemma returns_agent_contact cfg base_url :
  returns (Agent.find_contact_page E cfg base_url).
Proof. apply returns_try. intros. apply returns_ret. Qed.

Lemma monotone_agent_contact cfg base_url :
  monotone (Agent.find_contact_page E cfg base_url).
Proof.
  apply monotone_try; [|intros; apply monotone_ret].
  apply monotone_bind; [apply monotone_probe_first|].
  intros [url|]; [apply monotone_ret|].
  apply monotone_bind; [apply monotone_lift | intros; apply monotone_probe_first].
Qed.

Lemma returns_agent_domain cfg company_name :
  returns (Agent.get_company_domain E cfg company_name).
Proof.
  apply returns_bind; [apply returns_probe_first|].
  intros [url|]; [apply returns_ret|].
  apply returns_lift, catch_returns. intros. by eexists.
Qed.

Lemma monotone_agent_domain cfg company_name :
  monotone (Agent.get_company_domain E cfg company_name).
Proof.
  apply monotone_bind; [apply monotone_probe_first|].
  intros [url|]; [apply monotone_ret | apply monotone_lift].
Qed.

Lemma returns_deeper_search cfg website pages :
  returns (Base.deeper_search E cfg website pages).
Proof.
  induction pages as [|p rest IH]; simpl; [apply returns_ret|].
  apply returns_bind; [apply returns_check|].
  intros [|]; [|apply IH].
  apply returns_bind; [apply returns_lift, base_extract_returns|].
  intros [|e l]; [apply IH | apply returns_ret].
Qed.

Lemma monotone_deeper_search cfg website pages :
  monotone (Base.deeper_search E cfg website pages).
Proof.
  induction pages as [|p rest IH]; simpl; [apply monotone_ret|].
  apply monotone_bind; [apply monotone_check|].
  intros [|]; [|apply IH].
  apply monotone_bind; [apply monotone_lift|].
  intros [|e l]; [apply IH | apply monotone_ret].
Qed.

Lemma gather_returns cfg sources : ∃ l, Base.gather E cfg sources = Returned l.
Proof.
  induction sources as [|src rest [l IH]]; simpl; [by eexists|].
  destruct (base_extract_returns E cfg src) as [l0 H0].
  rewrite H0, IH. by eexists.
Qed.

Lemma linkedin_returns company_name :
  ∃ o, Base.find_linkedin_profile E company_name = Returned o.
Proof. apply catch_returns. intros. by eexists. Qed.

Lemma monotone_base_info cfg company_name service_category :
  monotone (Base.get_company_info E cfg company_name service_category).
Proof.
  apply monotone_bind; [apply monotone_base_domain|]. intros found.
  case_match; [|apply monotone_ret].
  apply monotone_bind; [apply monotone_lift|]. intros linkedin.
  apply monotone_bind; [apply monotone_base_contact|]. intros contact_page.
  apply monotone_bind; [apply monotone_lift|]. intros gathered.
  apply monotone_bind; [|intros; apply monotone_ret].
  case_match; [apply monotone_deeper_search | apply monotone_ret].
Qed.

Lemma monotone_search_emails cfg company_name domain :
  monotone (Agent.search_emails_with_api E cfg company_name domain).
Proof.
  apply monotone_bind.
  - case_match; [apply monotone_ret | apply monotone_agent_domain].
  - intros dom. case_match; [apply monotone_lift | apply monotone_ret].
Qed.

Lemma returns_search_emails cfg company_name domain :
  returns (Agent.search_emails_with_api E cfg company_name domain).
Proof.
  apply returns_bind.
  - case_match; [apply returns_ret | apply returns_agent_domain].
  - intros dom. case_match; [|apply returns_ret].
    apply returns_lift, catch_returns. intros. by eexists.
Qed.

Lemma monotone_agent_info cfg services company_name service_name :
  monotone (Agent.get_company_info E cfg services company_name service_name).
Proof.
  apply monotone_bind; [apply monotone_agent_domain|]. intros found.
  case_match; [|apply monotone_ret].
  apply monotone_bind; [apply monotone_lift|]. intros ai_insights.
  apply monotone_bind; [apply monotone_search_emails|]. intros api_emails.
  apply monotone_bind.
  - case_match; [|apply monotone_ret].
    apply monotone_bind; [apply monotone_agent_contact|]. intros contact_page.
    case_match; [|apply monotone_ret].
    apply monotone_bind; [apply monotone_lift | intros; apply monotone_ret].
  - intros emails. apply monotone_bind; [apply monotone_lift|].
    intros; apply monotone_ret.
Qed.

End Growth.

(** ** What the assemblers return *)


Lemma returns_base_info (E : env) cfg company_name service_category :
  returns (Base.get_company_info E cfg company_name service_category).
Proof.
  apply returns_bind; [apply returns_base_domain|]. intros found.
  case_match; [|apply returns_ret].
  apply returns_bind; [apply returns_lift, linkedin_returns|]. intros linkedin.
  apply returns_bind; [apply returns_base_contact|]. intros contact_page.
  apply returns_bind; [apply returns_lift, gather_returns|]. intros gathered.
  apply returns_bind; [|intros; apply returns_ret].
  case_match; [apply returns_deeper_search | apply returns_ret].
Qed.

(** X1. The assembler of the base variant never raises, whatever the
    network, the pages and the search engine do: it returns a record when
    the resolver came back with a non-empty URL and [None] otherwise. *)
Theorem base_assembler_never_raises (E : env) cfg company_name service_category st :
  ∃ found st1 r st',
    Base.get_company_domain E cfg company_name st = (Returned found, st1) ∧
    Base.get_company_info E cfg company_name service_category st = (Returned r, st') ∧
    (is_Some r ↔ Py.truthy found = true).
Proof.
  destruct (returns_base_domain E cfg company_name st) as (found & st1 & Hdom).
  destruct (returns_base_info E cfg company_name service_category st) as (r & st' & Hrun).
  exists found, st1, r, st'. split_and!; [done..|].
  unfold Base.get_company_info in Hrun.
  rewrite (bind_returned _ _ _ _ _ Hdom) in Hrun.
  destruct (Py.truthy found).
  - split; [done | intros _].
    apply bind_inv in Hrun as (? & ? & _ & Hrun).
    apply bind_inv in Hrun as (? & ? & _ & Hrun).
    apply bind_inv in Hrun as (? & ? & _ & Hrun).
    apply bind_inv in Hrun as (? & ? & _ & Hrun).
    apply ret_inv in Hrun as [<- _]. by eexists.
  - apply ret_inv in Hrun as [<- _]. split; [by intros [? ?] | done].
Qed.




(** ** URLs that a method hands back *)

Lemma check_true_answered (E : env) url st st' :
  check_url_exists E url st = (Returned true, st') →
  (url ∉ processed_urls st) ∧ url ∈ processed_urls st' ∧ answered_200 E st st' url.
Proof.
  destruct (decide (url ∈ processed_urls st)) as [Hin|Hnin].
  - rewrite check_url_exists_hit by done. by intros [=].
  - rewrite check_url_exists_miss by done. unfold head_ok.
    destruct (requests_head E (head_requests st) url) as [e|code] eqn:Hhead;
      intros [= Hcode <-].
    apply Z.eqb_eq in Hcode as ->. split_and!; [done | simpl; set_solver |].
    exists [], []. simpl. by rewrite app_nil_r.
Qed.

Lemma answered_after (E : env) st0 st st' url :
  extends st0 st → answered_200 E st st' url → answered_200 E st0 st' url.
Proof.
  intros [[k Hk] _] (before & after & Hlog & H200).
  exists (k ++ before), after. rewrite Hk in Hlog, H200.
  split; [by rewrite Hlog, <- !(assoc_L (++)) | by rewrite (assoc_L (++))].
Qed.

Lemma answered_before (E : env) st st' st'' url :
  answered_200 E st st' url → extends st' st'' → answered_200 E st st'' url.
Proof.
  intros (before & after & Hlog & H200) [[k Hk] _].
  exists before, (after ++ k). split; [|done].
  by rewrite Hk, Hlog, <- !(assoc_L (++)).
Qed.

Section HandsBack.

Variable E : env.

Lemma hands_back_none : hands_back_probed E (mret None).
Proof. intros st url st' [[=] _]%ret_inv. Qed.

Lemma hands_back_try (body : M (option string)) :
  hands_back_probed E body →
  hands_back_probed E (try_except body (λ _, mret None)).
Proof.
  intros Hb st url st' [H | (e & st1 & _ & [[=] _]%ret_inv)]%try_except_inv. eauto.
Qed.

(** After a step that only grows the state. *)
Lemma hands_back_then {A} (m : M A) (f : A → M (option string)) :
  monotone m → (∀ a, hands_back_probed E (f a)) → hands_back_probed E (m ≫= f).
Proof.
  intros Hm Hf st url st' (a & st1 & H1 & H2)%bind_inv.
  pose proof (Hm st) as Hext. rewrite H1 in Hext. simpl in Hext.
  destruct (Hf a st1 url st' H2) as (Hnew & Hin & Hans).
  split_and!; [|done | by eapply answered_after].
  intros Hold. apply Hnew. by apply Hext.
Qed.

Lemma hands_back_probe_first urls st url st' :
  probe_first E urls st = (Returned (Some url), st') →
  url ∈ urls ∧
  (url ∉ processed_urls st) ∧ url ∈ processed_urls st' ∧ answered_200 E st st' url.
Proof.
  revert st. induction urls as [|u rest IH]; intros st; simpl.
  - by intros [[=] _]%ret_inv.
  - intros (ok & st1 & Hcheck & Hrest)%bind_inv.
    pose proof (monotone_check E u st) as Hext. rewrite Hcheck in Hext. simpl in Hext.
    destruct ok.
    + apply ret_inv in Hrest as [[= <-] ->].
      split; [left | by apply check_true_answered].
    + destruct (IH st1 Hrest) as (Hin & Hnew & Hcached & Hans).
      split_and!; [by right | | done | by eapply answered_after].
      intros Hold. apply Hnew. by apply Hext.
Qed.

Lemma hands_back_first urls : hands_back_probed E (probe_first E urls).
Proof. intros st url st' H. by apply hands_back_probe_first in H as [_ ?]. Qed.

(** A first attempt, and a second one when the first found nothing. *)
Lemma hands_back_or_else (m rest : M (option string)) :
  hands_back_probed E m → monotone m → hands_back_probed E rest →
  hands_back_probed E
    (found ← m; match found with Some url => mret (Some url) | None => rest end).
Proof.
  intros Hm Hmono Hrest st url st' (found & st1 & H1 & H2)%bind_inv.
  destruct found as [u|].
  - apply ret_inv in H2 as [[= <-] ->]. eauto.
  - pose proof (Hmono st) as Hext. rewrite H1 in Hext. simpl in Hext.
    destruct (Hrest st1 url st' H2) as (Hnew & Hin & Hans).
    split_and!; [|done | by eapply answered_after].
    intros Hold. apply Hnew. by apply Hext.
Qed.

Lemma hands_back_search_links ls : hands_back_probed E (Base.search_links E ls).
Proof.
  induction ls as [|l rest IH]; simpl; [apply hands_back_none|].
  case_match; [|apply IH].
  intros st url st' (ok & st1 & Hcheck & Hrest)%bind_inv.
  pose proof (monotone_check E (Base.potential_url (href l)) st) as Hext.
  rewrite Hcheck in Hext. simpl in Hext.
  destruct ok.
  - apply ret_inv in Hrest as [[= <-] ->]. by apply check_true_answered.
  - destruct (IH st1 url st' Hrest) as (Hnew & Hin & Hans).
    split_and!; [|done | by eapply answered_after].
    intros Hold. apply Hnew. by apply Hext.
Qed.

Lemma hands_back_base_domain cfg company_name :
  hands_back_probed E (Base.get_company_domain E cfg company_name).
Proof.
  apply hands_back_or_else;
    [apply hands_back_first | apply monotone_probe_first |].
  apply hands_back_try, hands_back_then; [apply monotone_lift|].
  intros pg. apply hands_back_search_links.
Qed.

Lemma hands_back_base_contact cfg base_url :
  hands_back_probed E (Base.find_contact_page E cfg base_url).
Proof.
  apply hands_back_or_else;
    [apply hands_back_first | apply monotone_probe_first |].
  apply hands_back_try, hands_back_then; [apply monotone_lift|].
  intros pg. apply hands_back_first.
Qed.

Lemma hands_back_agent_contact cfg base_url :
  hands_back_probed E (Agent.find_contact_page E cfg base_url).
Proof.
  apply hands_back_try, hands_back_or_else;
    [apply hands_back_first | apply monotone_probe_first |].
  apply hands_back_then; [apply monotone_lift|].
  intros pg. apply hands_back_first.
Qed.

End HandsBack.

(** X3. A URL that the resolver of the base variant returns, from the
    pattern phase or from the search fallback, is one that this very call
    probed with success: it was not in the probe cache before the call, it
    is in it after, and a HEAD request for it was answered with status
    200 during the call. *)
Theorem base_resolver_returns_probed_url (E : env) cfg company_name st url st' :
  Base.get_company_domain E cfg company_name st = (Returned (Some url), st') →
  (url ∉ processed_urls st) ∧ url ∈ processed_urls st' ∧ answered_200 E st st' url.
Proof. apply hands_back_base_domain. Qed.

Lemma run_eq {A} (m : M A) (st : state) (a : A) :
  (m st).1 = Returned a → m st = (Returned a, (m st).2).
Proof. destruct (m st) as [o st']. simpl. by intros ->. Qed.

Lemma base_resolver_returns_probed_url_witness :
  ("https://acmecorp.com" ∉ processed_urls fresh) ∧
  "https://acmecorp.com" ∈
    processed_urls
      (Base.get_company_domain (Sample.world ["https://acmecorp.com"] [] [] ∅)
         Base.CONFIG "Acme Corp" fresh).2 ∧
  answered_200 (Sample.world ["https://acmecorp.com"] [] [] ∅) fresh
    (Base.get_company_domain (Sample.world ["https://acmecorp.com"] [] [] ∅)
       Base.CONFIG "Acme Corp" fresh).2
    "https://acmecorp.com".
Proof.
  apply (base_resolver_returns_probed_url
           (Sample.world ["https://acmecorp.com"] [] [] ∅) Base.CONFIG "Acme Corp" fresh).
  apply run_eq. vm_compute. reflexivity.
Defined.

(** X4. A contact page that [find_contact_page] returns, in either
    variant, from the common paths or from the links of the home page, is
    a URL that this very call probed with success. *)
Theorem contact_page_is_probed_url (E : env) (base_url : string) (st : state)
    (url : string) (st' : state) :
  (∀ cfg,
     Base.find_contact_page E cfg base_url st = (Returned (Some url), st') →
     (url ∉ processed_urls st) ∧ url ∈ processed_urls st' ∧ answered_200 E st st' url) ∧
  (∀ cfg,
     Agent.find_contact_page E cfg base_url st = (Returned (Some url), st') →
     (url ∉ processed_urls st) ∧ url ∈ processed_urls st' ∧ answered_200 E st st' url).
Proof.
  split; intros cfg; [apply hands_back_base_contact | apply hands_back_agent_contact].
Qed.

Lemma contact_page_is_probed_url_witness :
  answered_200 Sample.two_pages fresh
    (Base.find_contact_page Sample.two_pages Base.CONFIG "https://acme.com" fresh).2
    "https://acme.com/contact" ∧
  answered_200 Sample.two_pages fresh
    (Agent.find_contact_page Sample.two_pages Agent.CONFIG "https://acme.com" fresh).2
    "https://acme.com/contact".
Proof.
  split.
  - destruct (contact_page_is_probed_url Sample.two_pages "https://acme.com" fresh
                "https://acme.com/contact"
                (Base.find_contact_page Sample.two_pages Base.CONFIG
                   "https://acme.com" fresh).2) as [HB _].
    apply (HB Base.CONFIG). apply run_eq. vm_compute. reflexivity.
  - destruct (contact_page_is_probed_url Sample.two_pages "https://acme.com" fresh
                "https://acme.com/contact"
                (Agent.find_contact_page Sample.two_pages Agent.CONFIG
                   "https://acme.com" fresh).2) as [_ HA].
    apply (HA Agent.CONFIG). apply run_eq. vm_compute. reflexivity.
Defined.

(** X5. The base resolver hands out a URL at most once per instance: once
    it has returned a URL, no later call, for whatever company, returns
    that URL again. *)
Theorem base_resolver_never_repeats (E : env) cfg name1 name2 st st1 st2 url :
  Base.get_company_domain E cfg name1 st = (Returned (Some url), st1) →
  processed_urls st1 ⊆ processed_urls st2 →
  (Base.get_company_domain E cfg name2 st2).1 ≠ Returned (Some url).
Proof.
  intros H1 Hsub H2.
  apply hands_back_base_domain in H1 as (_ & Hin & _).
  apply run_eq, hands_back_base_domain in H2 as (Hnew & _).
  apply Hnew. by apply Hsub.
Qed.

Lemma base_resolver_never_repeats_witness :
  (Base.get_company_domain (Sample.world ["https://acmecorp.com"] [] [] ∅)
     Base.CONFIG "Acme Corp"
     (Base.get_company_domain (Sample.world ["https://acmecorp.com"] [] [] ∅)
        Base.CONFIG "Acme Corp" fresh).2).1
  ≠ Returned (Some "https://acmecorp.com").
Proof.
  apply (base_resolver_never_repeats
           (Sample.world ["https://acmecorp.com"] [] [] ∅) Base.CONFIG
           "Acme Corp" "Acme Corp" fresh
           (Base.get_company_domain (Sample.world ["https://acmecorp.com"] [] [] ∅)
              Base.CONFIG "Acme Corp" fresh).2).
  - apply run_eq. vm_compute. reflexivity.
  - done.
Defined.



(** ** Nothing answers *)

Section NothingAnswers.

Variable E : env.
Hypothesis Hnever : ∀ h url, requests_head E h url ≠ HeadStatus 200.

Lemma check_false_when_no_200 url st : (check_url_exists E url st).1 = Returned false.
Proof.
  destruct (decide (url ∈ processed_urls st)) as [Hin|Hnin].
  - by rewrite check_url_exists_hit.
  - rewrite check_url_exists_miss by done. simpl. unfold head_ok.
    destruct (requests_head E (head_requests st) url) as [e|code] eqn:Hhead; [done|].
    f_equal. apply Z.eqb_neq. intros ->. by apply (Hnever _ _ Hhead).
Qed.

Lemma probe_first_none urls st : (probe_first E urls st).1 = Returned None.
Proof.
  revert st. induction urls as [|u rest IH]; intros st; simpl; [done|].
  rewrite (bind_returned _ _ _ _ _ (run_eq _ _ _ (check_false_when_no_200 u st))).
  apply IH.
Qed.

Lemma search_links_none ls st : (Base.search_links E ls st).1 = Returned None.
Proof.
  revert st. induction ls as [|l rest IH]; intros st; simpl; [done|].
  case_match; [|apply IH].
  rewrite (bind_returned _ _ _ _ _ (run_eq _ _ _ (check_false_when_no_200 _ st))).
  apply IH.
Qed.

Lemma base_domain_none cfg company_name st :
  (Base.get_company_domain E cfg company_name st).1 = Returned None.
Proof.
  unfold Base.get_company_domain, Base.pattern_phase.
  rewrite (bind_returned _ _ _ _ _ (run_eq _ _ _ (probe_first_none _ st))).
  unfold try_except, lift, mbind at 1, M_bind.
  destruct (session_get E _) as [pg|e]; [|done].
  pose proof (search_links_none (links pg)
                (probe_first E (set_iter E (Base.variations cfg company_name)) st).2) as H.
  by destruct (Base.search_links E (links pg) _) as [[o|e] st1]; simpl in *; subst.
Qed.

End NothingAnswers.

(** X7. When no HEAD request is ever answered with status 200, the base
    variant resolves no company and its assembler produces no record: it
    returns [None], without raising. *)
Theorem base_no_record_when_nothing_answers (E : env) cfg company_name
    service_category st :
  (∀ h url, requests_head E h url ≠ HeadStatus 200) →
  (Base.get_company_domain E cfg company_name st).1 = Returned None ∧
  (Base.get_company_info E cfg company_name service_category st).1 = Returned None.
Proof.
  intros Hnever. split; [by apply base_domain_none|].
  unfold Base.get_company_info.
  by rewrite (bind_returned _ _ _ _ _ (run_eq _ _ _ (base_domain_none E Hnever cfg company_name st))).
Qed.

Lemma base_no_record_when_nothing_answers_witness :
  (Base.get_company_domain Sample.silent Base.CONFIG "Acme Corp" fresh).1 = Returned None ∧
  (Base.get_company_info Sample.silent Base.CONFIG "Acme Corp" "analytics" fresh).1
    = Returned None.
Proof.
  apply (base_no_record_when_nothing_answers Sample.silent Base.CONFIG
           "Acme Corp" "analytics" fresh).
  intros h url. unfold Sample.silent, Sample.world, Sample.head_of, requests_head.
  rewrite bool_decide_eq_false_2 by apply not_elem_of_nil. discriminate.
Defined.

(** ** The URLs of a record *)

Lemma truthy_inv (o : option string) :
  Py.truthy o = true → ∃ s, o = Some s ∧ s ≠ "".
Proof. destruct o as [[|c s]|]; simpl; intros [=]. by eexists. Qed.

(** X8. In a record of the base variant the ['website'] is a non-empty
    URL that was answered with status 200 during the call that built the
    record, and the ['contact_page'] is either empty or such a URL too. *)
Theorem base_record_urls_were_probed (E : env) cfg company_name service_category
    st r st' :
  Base.get_company_info E cfg company_name service_category st
    = (Returned (Some r), st') →
  ∃ website contact_page,
    r !! "website" = Some (VStr website) ∧
    website ≠ "" ∧
    answered_200 E st st' website ∧
    r !! "contact_page" = Some (VStr contact_page) ∧
    (contact_page = "" ∨ answered_200 E st st' contact_page).
Proof.
  unfold Base.get_company_info.
  intros (found & st1 & Hdom & H)%bind_inv.
  destruct (Py.truthy found) eqn:Hfound; [|by apply ret_inv in H as [[=] _]].
  apply truthy_inv in Hfound as (website & -> & Hne).
  change (default "" (Some website)) with website in H.
  apply bind_inv in H as (linkedin & st2 & [_ ->]%lift_inv & H).
  apply bind_inv in H as (cp & st3 & Hcp & H).
  apply bind_inv in H as (gathered & st4 & [_ ->]%lift_inv & H).
  apply bind_inv in H as (extra & st5 & Hextra & H).
  apply ret_inv in H as [[= <-] ->].
  assert (extends st st1) as Hext1.
  { pose proof (monotone_base_domain E cfg company_name st) as Hm.
    by rewrite Hdom in Hm. }
  assert (extends st1 st3) as Hext3.
  { pose proof (monotone_base_contact E cfg website st1) as Hm. by rewrite Hcp in Hm. }
  assert (extends st3 st5) as Hext5.
  { destruct (set_iter E (list_to_set gathered)).
    - pose proof (monotone_deeper_search E cfg website Base.deeper_pages st3) as Hm.
      by rewrite Hextra in Hm.
    - apply ret_inv in Hextra as [_ ->]. apply extends_refl. }
  exists website, (if Py.truthy cp then default "" cp else "").
  split_and!; [reflexivity | done | | reflexivity |].
  - apply hands_back_base_domain in Hdom as (_ & _ & Hans).
    eapply answered_before; [exact Hans|]. by eapply extends_trans.
  - destruct (Py.truthy cp) eqn:Htruthy; [right | by left].
    apply truthy_inv in Htruthy as (c & -> & _). simpl.
    apply hands_back_base_contact in Hcp as (_ & _ & Hans).
    eapply answered_after; [exact Hext1|]. by eapply answered_before.
Qed.

Lemma base_record_urls_were_probed_witness :
  ∃ website contact_page,
    Base.result Sample.two_pages "Acme" "https://acme.com" None "analytics"
      [ "a3@acme.com"; "a5@acme.com"; "a1@acme.com"; "a2@acme.com"; "a4@acme.com";
        "b3@acme.com"; "b5@acme.com"; "b1@acme.com"; "b2@acme.com"; "b4@acme.com" ]
      (Some "https://acme.com/contact") !! "website" = Some (VStr website) ∧
    website ≠ "" ∧
    answered_200 Sample.two_pages fresh
      (Base.get_company_info Sample.two_pages Base.CONFIG "Acme" "analytics" fresh).2
      website ∧
    Base.result Sample.two_pages "Acme" "https://acme.com" None "analytics"
      [ "a3@acme.com"; "a5@acme.com"; "a1@acme.com"; "a2@acme.com"; "a4@acme.com";
        "b3@acme.com"; "b5@acme.com"; "b1@acme.com"; "b2@acme.com"; "b4@acme.com" ]
      (Some "https://acme.com/contact") !! "contact_page" = Some (VStr contact_page) ∧
    (contact_page = "" ∨
     answered_200 Sample.two_pages fresh
       (Base.get_company_info Sample.two_pages Base.CONFIG "Acme" "analytics" fresh).2
       contact_page).
Proof.
  apply (base_record_urls_were_probed Sample.two_pages Base.CONFIG "Acme" "analytics" fresh).
  apply run_eq. vm_compute. reflexivity.
Defined.

(** ** The search API harvest and the profile search *)

Lemma api_email_set_kept cfg results e :
  e ∈ Agent.api_email_set cfg results →
  ∃ e0, e = Py.lower e0 ∧ Agent.ignored cfg e0 = false.
Proof.
  unfold Agent.api_email_set.
  assert (∀ acc : gset string,
            (∀ x, x ∈ acc → ∃ e0, x = Py.lower e0 ∧ Agent.ignored cfg e0 = false) →
            e ∈ foldl (λ acc r,
                         match result_content r with
                         | Some content =>
                             list_to_set (Agent.kept_lower cfg
                                            (Py.findall Agent.email_regex content)) ∪ acc
                         | None => acc
                         end) acc results →
            ∃ e0, e = Py.lower e0 ∧ Agent.ignored cfg e0 = false) as Hgen.
  { induction results as [|r rest IH]; intros acc Hacc; simpl; [auto|].
    apply IH. destruct (result_content r) as [content|]; [|done].
    intros x [Hx | Hx]%elem_of_union; [|auto].
    apply elem_of_list_to_set, kept_lower_elem in Hx as (e0 & -> & _ & Hk). eauto. }
  apply Hgen. set_solver.
Qed.

(** X9. [search_emails_with_api] never raises.  Its result has no
    repetition and at most the configured maximum of addresses, each in
    lowercase and free of every deny-listed pattern; and it is empty when
    the search tool raises on the query for the given domain. *)
Theorem api_emails_properties (E : env) cfg company_name domain st :
  set_iter_ok E →
  (0 ≤ Agent.max_emails_per_company cfg)%Z →
  ∃ l st',
    Agent.search_emails_with_api E cfg company_name domain st = (Returned l, st') ∧
    NoDup l ∧
    (Z.of_nat (length l) ≤ Agent.max_emails_per_company cfg)%Z ∧
    (∀ e, e ∈ l → Py.lower e = e ∧ clean (Agent.ignore_email_patterns cfg) e) ∧
    (∀ ex, Py.truthy domain = true →
           search_tool E ("email contacts @" +:+ netloc E (default "" domain) +:+
                          " -@gmail.com -@yahoo.com -@outlook.com") = Raised ex →
           l = [] ∧ st' = st).
Proof.
  intros Hiter Hmax.
  destruct (returns_search_emails E cfg company_name domain st) as (l & st' & Hrun).
  exists l, st'. split; [done|].
  unfold Agent.search_emails_with_api in Hrun.
  apply bind_inv in Hrun as (dom & st1 & Hdom & Hrun).
  assert (Py.truthy domain = true → dom = domain ∧ st1 = st) as Hgiven.
  { intros Ht. rewrite Ht in Hdom. by apply ret_inv in Hdom as [-> ->]. }
  destruct (Py.truthy dom) eqn:Htruthy.
  2:{ apply ret_inv in Hrun as [<- _].
      split_and!; [constructor | simpl; lia | intros e He; inversion He |].
      intros ex Ht _. destruct (Hgiven Ht) as [-> _]. congruence. }
  apply lift_inv in Hrun as [Hcatch ->].
  destruct (search_tool E _) as [results|ex0] eqn:Hsearch; simpl in Hcatch;
    injection Hcatch as <-.
  2:{ split_and!; [constructor | simpl; lia | intros e He; inversion He |].
      intros ex Ht _. by destruct (Hgiven Ht) as [_ ->]. }
  split_and!.
  - apply slice_to_NoDup, (set_iter_NoDup E Hiter).
  - by apply slice_to_length.
  - intros e He. apply slice_to_elem, (set_iter_elem E Hiter) in He.
    destruct (api_email_set_kept _ _ _ He) as (e0 & -> & Hk).
    split; [apply lower_idemp|].
    intros p Hp. apply (existsb_false_elem _ _ p Hk Hp).
  - intros ex Ht Hraised. destruct (Hgiven Ht) as [-> _]. congruence.
Qed.

Lemma api_emails_properties_witness :
  ∃ l st',
    Agent.search_emails_with_api Sample.api_and_page Agent.CONFIG "Acme"
      (Some "https://acme.com") fresh = (Returned l, st') ∧
    NoDup l ∧
    (Z.of_nat (length l) ≤ 5)%Z ∧
    (∀ e, e ∈ l → Py.lower e = e ∧ clean (Agent.ignore_email_patterns Agent.CONFIG) e) ∧
    (∀ ex, Py.truthy (Some "https://acme.com") = true →
           search_tool Sample.api_and_page
             ("email contacts @" +:+ netloc Sample.api_and_page
                                       (default "" (Some "https://acme.com")) +:+
              " -@gmail.com -@yahoo.com -@outlook.com") = Raised ex →
           l = [] ∧ st' = fresh).
Proof.
  apply (api_emails_properties Sample.api_and_page Agent.CONFIG "Acme"
           (Some "https://acme.com") fresh).
  - by apply elements_iter_ok.
  - simpl. lia.
Defined.

Lemma before_first_amp_free (s : string) :
  Py.contains "&" (Py.before_first "&" s) = false.
Proof.
  induction s as [|c s IH]; [done|].
  cbn [Py.before_first Py.startswith].
  destruct (Ascii.eqb "&" c) eqn:Hc; cbn [andb]; [done|].
  cbn [Py.contains Py.startswith]. rewrite Hc. cbn [andb orb]. exact IH.
Qed.

(** X10. [find_linkedin_profile] never raises.  A profile that it returns
    contains no ["&"] and is the part before the first ["&"] of the target
    of a link, on a page that was fetched, whose target contains
    ["linkedin.com/company/"]. *)
Theorem linkedin_profile_shape (E : env) (company_name : string) :
  ∃ o,
    Base.find_linkedin_profile E company_name = Returned o ∧
    ∀ profile, o = Some profile →
      Py.contains "&" profile = false ∧
      ∃ url pg l,
        session_get E url = Returned pg ∧ l ∈ links pg ∧
        Py.contains "linkedin.com/company/" (href l) = true ∧
        profile = Py.before_first "&" (href l).
Proof.
  destruct (linkedin_returns E company_name) as [o Ho]. exists o. split; [done|].
  intros profile ->. unfold Base.find_linkedin_profile in Ho.
  set (u1 := "https://www.google.com/search?q=" +:+
             Py.replace " " "+" company_name +:+ "+LinkedIn") in Ho.
  set (u2 := "https://www.google.com/search?q=site:linkedin.com/company+" +:+
             Py.replace " " "+" company_name) in Ho.
  destruct (session_get E u1) as [pg|e] eqn:Hpg; simpl in Ho;
    [|unfold mret, outcome_ret in Ho; discriminate].
  destruct (List.find Base.is_plain_profile (links pg)) as [l|] eqn:Hl; simpl in Ho.
  - unfold mret, outcome_ret in Ho. injection Ho as <-.
    split; [apply before_first_amp_free|].
    apply find_some in Hl as [Hin Hplain].
    apply andb_true_iff in Hplain as [Hcompany _].
    exists u1, pg, l. split_and!; [exact Hpg | by apply list_elem_of_In | done | done].
  - destruct (session_get E u2) as [pg'|e] eqn:Hpg'; simpl in Ho;
      [|unfold mret, outcome_ret in Ho; discriminate].
    unfold mret, outcome_ret in Ho. injection Ho as Ho.
    destruct (List.find Base.is_company_profile (links pg')) as [l|] eqn:Hl';
      simpl in Ho; [|done].
    injection Ho as <-. split; [apply before_first_amp_free|].
    apply find_some in Hl' as [Hin Hcompany].
    exists u2, pg', l. split_and!; [exact Hpg' | by apply list_elem_of_In | done | done].
Qed.

Lemma linkedin_profile_shape_witness :
  Py.contains "&" "/url?q=https://www.linkedin.com/company/acme" = false.
Proof.
  destruct (linkedin_profile_shape
              (Sample.world []
                 [ ("https://www.google.com/search?q=Acme+LinkedIn",
                    Page [Link "Acme | LinkedIn"
                            "/url?q=https://www.linkedin.com/company/acme&sa=U"]
                         "" [] [] []) ] [] ∅)
              "Acme") as (o & Ho & Hshape).
  apply (Hshape "/url?q=https://www.linkedin.com/company/acme").
  assert (Base.find_linkedin_profile
            (Sample.world []
               [ ("https://www.google.com/search?q=Acme+LinkedIn",
                  Page [Link "Acme | LinkedIn"
                          "/url?q=https://www.linkedin.com/company/acme&sa=U"]
                       "" [] [] []) ] [] ∅)
            "Acme" = Returned (Some "/url?q=https://www.linkedin.com/company/acme"))
    as Hrun by (vm_compute; reflexivity).
  congruence.
Defined.

(** ** How many addresses a record can hold *)

Lemma size_union_le (X Y : gset string) : (size (X ∪ Y) ≤ size X + size Y)%nat.
Proof.
  rewrite size_union_alt. apply Nat.add_le_mono_l, subseteq_size.
  intros x Hx. by apply elem_of_difference in Hx as [? _].
Qed.

Lemma size_list_to_set_le (l : list string) :
  (size (list_to_set l : gset string) ≤ length l)%nat.
Proof.
  induction l as [|x l IH].
  - by rewrite list_to_set_nil, size_empty.
  - rewrite list_to_set_cons. etrans; [apply size_union_le|].
    rewrite size_singleton. simpl. lia.
Qed.

Section Sizes.

Variable E : env.
Hypothesis Hiter : set_iter_ok E.

Lemma gather_length cfg sources l :
  (0 ≤ Base.max_emails_per_company cfg)%Z →
  Base.gather E cfg sources = Returned l →
  (Z.of_nat (length l) ≤ Z.of_nat (length sources) * Base.max_emails_per_company cfg)%Z.
Proof.
  intros Hmax. revert l. induction sources as [|src rest IH]; intros l; simpl.
  - intros [= <-]. simpl. lia.
  - destruct (Base.extract_emails_from_page E cfg src) as [l0|] eqn:H0; [|done].
    destruct (Base.gather E cfg rest) as [l1|] eqn:H1; [|done].
    intros [= <-]. rewrite length_app.
    pose proof (base_extract_length E cfg src l0 Hmax H0).
    pose proof (IH l1 eq_refl). lia.
Qed.

Lemma deeper_search_length cfg website pages st l st' :
  (0 ≤ Base.max_emails_per_company cfg)%Z →
  Base.deeper_search E cfg website pages st = (Returned l, st') →
  (Z.of_nat (length l) ≤ Base.max_emails_per_company cfg)%Z.
Proof.
  intros Hmax. revert st. induction pages as [|p rest IH]; intros st; simpl.
  - intros [<- _]%ret_inv. simpl. lia.
  - intros (ok & st1 & _ & Hrest)%bind_inv. destruct ok; [|eauto].
    apply bind_inv in Hrest as (deeper & st2 & [Hex ->]%lift_inv & Hrest).
    destruct deeper as [|e deeper]; [eauto|].
    apply ret_inv in Hrest as [<- _]. by eapply base_extract_length.
Qed.

End Sizes.

(** X11. A record of the base variant lists at most twice the configured
    maximum of addresses: the cut is made on each of the at most two
    source pages, and the deeper search adds the addresses of one page
    only when those two gave none. *)
Theorem base_record_at_most_twice_max (E : env) cfg company_name service_category st r :
  set_iter_ok E →
  (0 ≤ Base.max_emails_per_company cfg)%Z →
  produced (Base.get_company_info E cfg company_name service_category st) = Some r →
  ∃ l, emails_of r = Some l ∧
       (Z.of_nat (length l) ≤ 2 * Base.max_emails_per_company cfg)%Z.
Proof.
  intros Hiter Hmax [st' Hrun]%produced_inv.
  unfold Base.get_company_info in Hrun.
  apply bind_inv in Hrun as (found & st1 & _ & H).
  destruct (Py.truthy found); [|by apply ret_inv in H as [[=] _]].
  apply bind_inv in H as (linkedin & st2 & _ & H).
  apply bind_inv in H as (contact_page & st3 & _ & H).
  apply bind_inv in H as (gathered & st4 & [Hgather _]%lift_inv & H).
  apply bind_inv in H as (extra & st5 & Hextra & H).
  apply ret_inv in H as [[= <-] _].
  eexists. split; [reflexivity|].
  apply (gather_length E cfg _ _ Hmax) in Hgather.
  assert (Z.of_nat (length gathered) ≤ 2 * Base.max_emails_per_company cfg)%Z as Hg.
  { etrans; [exact Hgather|]. apply Z.mul_le_mono_nonneg_r; [done|].
    destruct (Py.truthy contact_page && _); simpl; lia. }
  pose proof (set_iter_length E Hiter (list_to_set gathered)) as Hlen.
  pose proof (size_list_to_set_le gathered) as Hsize.
  rewrite length_app.
  destruct (set_iter E (list_to_set gathered)) as [|e l] eqn:Hall.
  - apply (deeper_search_length E cfg _ _ _ _ _ Hmax) in Hextra. simpl. lia.
  - apply ret_inv in Hextra as [<- _]. simpl in *. lia.
Qed.

Lemma base_record_at_most_twice_max_witness :
  ∃ r l,
    produced (Base.get_company_info Sample.two_pages Base.CONFIG
                "Acme" "analytics" fresh) = Some r ∧
    emails_of r = Some l ∧ (Z.of_nat (length l) ≤ 2 * 5)%Z.
Proof.
  assert (is_Some (produced (Base.get_company_info Sample.two_pages Base.CONFIG
                               "Acme" "analytics" fresh))) as [r Hrun]
    by (apply (bool_decide_unpack _); vm_compute; exact I).
  destruct (base_record_at_most_twice_max Sample.two_pages Base.CONFIG
              "Acme" "analytics" fresh r) as (l & Hl & Hlen);
    [by apply elements_iter_ok | simpl; lia | exact Hrun |].
  exists r, l. split_and!; [exact Hrun | exact Hl | exact Hlen].
Defined.

(** X12. In the AI-augmented variant the scraping step is only taken
    while fewer than the maximum of addresses are known, and each of the
    two sources gives at most the maximum; so, for a maximum of at least
    one and an insight without an ['email_count'] of its own, the count of
    a record is at most twice the maximum less one. *)
Theorem agent_count_below_twice_max (E : env) cfg services company_name
    service_name st r :
  set_iter_ok E →
  (1 ≤ Agent.max_emails_per_company cfg)%Z →
  produced (Agent.get_company_info E cfg services company_name service_name st)
    = Some r →
  (∀ ins, Agent.ai_enhance_company_info E services company_name service_name
            = Returned ins → ins !! "email_count" = None) →
  ∃ n, r !! "email_count" = Some (VInt n) ∧
       (0 ≤ n ≤ 2 * Agent.max_emails_per_company cfg - 1)%Z.
Proof.
  intros Hiter Hmax [st' Hrun]%produced_inv Hkey.
  unfold Agent.get_company_info in Hrun.
  apply bind_inv in Hrun as (found & st1 & _ & H).
  destruct (Py.truthy found); [|by apply ret_inv in H as [[=] _]].
  apply bind_inv in H as (ins & st2 & [Hins _]%lift_inv & H).
  apply bind_inv in H as (api & st3 & Hapi & H).
  apply bind_inv in H as (emails & st4 & Hemails & H).
  apply bind_inv in H as (descr & st5 & _ & H).
  apply ret_inv in H as [[= <-] _].
  eexists. split; [by apply agent_result_count, Hkey|].
  split; [lia|].
  pose proof (size_list_to_set_le api) as Hapi_size.
  destruct (Z.of_nat (size (list_to_set api : gset string))
              <? Agent.max_emails_per_company cfg)%Z eqn:Hlt.
  - apply Z.ltb_lt in Hlt.
    apply bind_inv in Hemails as (contact_page & st6 & _ & Hemails).
    destruct (Py.truthy contact_page); [|apply ret_inv in Hemails as [<- _]; lia].
    apply bind_inv in Hemails as (scraped & st7 & [Hex _]%lift_inv & Hemails).
    apply ret_inv in Hemails as [<- _].
    pose proof (agent_extract_length E cfg _ _ ltac:(lia) Hex) as Hscraped.
    pose proof (size_list_to_set_le scraped) as Hs_size.
    pose proof (size_union_le (list_to_set api) (list_to_set scraped)). lia.
  - apply ret_inv in Hemails as [<- _].
    destruct (api_emails_properties E cfg company_name (Some (default "" found)) st2
                Hiter ltac:(lia)) as (l & st'' & Hrun' & _ & Hlen & _).
    rewrite Hrun' in Hapi. injection Hapi as -> _. lia.
Qed.

Lemma agent_count_below_twice_max_witness :
  ∃ r n,
    produced (Agent.get_company_info Sample.api_and_page Agent.CONFIG Agent.SERVICES
                "Acme" "CRM Strategy" fresh) = Some r ∧
    r !! "email_count" = Some (VInt n) ∧ (0 ≤ n ≤ 2 * 5 - 1)%Z.
Proof.
  assert (is_Some (produced (Agent.get_company_info Sample.api_and_page Agent.CONFIG
                               Agent.SERVICES "Acme" "CRM Strategy" fresh))) as [r Hrun]
    by (apply (bool_decide_unpack _); vm_compute; exact I).
  assert (∀ ins, Agent.ai_enhance_company_info Sample.api_and_page Agent.SERVICES
                   "Acme" "CRM Strategy" = Returned ins →
                 ins !! "email_count" = None) as Hkey.
  { intros ins Hins. vm_compute in Hins. injection Hins as <-. reflexivity. }
  destruct (agent_count_below_twice_max Sample.api_and_page Agent.CONFIG Agent.SERVICES
              "Acme" "CRM Strategy" fresh r
              (elements_iter_ok Sample.api_and_page eq_refl)
              ltac:(simpl; lia) Hrun Hkey) as (n & Hn & Hbound).
  exists r, n. split; [exact Hrun | split; [exact Hn | exact Hbound]].
Defined.

(** ** How many requests the pattern phase sends *)

Lemma probe_first_sent (E : env) (urls : list string) (st : state) :
  (length (head_requests (probe_first E urls st).2) ≤
   length (head_requests st) + length urls)%nat.
Proof.
  revert st. induction urls as [|u rest IH]; intros st; simpl; [lia|].
  destruct (check_url_exists_returns E u st) as (b & st1 & H1).
  rewrite (bind_returned _ _ _ _ _ H1).
  assert (length (head_requests st1) ≤ S (length (head_requests st)))%nat as Hstep.
  { destruct (decide (u ∈ processed_urls st)) as [Hin|Hnin].
    - rewrite check_url_exists_hit in H1 by done. injection H1 as _ <-. lia.
    - rewrite check_url_exists_miss in H1 by done. injection H1 as _ <-. simpl.
      rewrite length_app. simpl. lia. }
  destruct b; simpl; [lia|]. specialize (IH st1). lia.
Qed.

Lemma variations_inner_size (name : string) (domains : list string) (acc : gset string) :
  (size (foldl (λ acc domain,
                  {[ "https://www." +:+ name +:+ "." +:+ domain ]} ∪
                  ({[ "https://" +:+ name +:+ "." +:+ domain ]} ∪ acc)) acc domains)
   ≤ size acc + 2 * length domains)%nat.
Proof.
  revert acc. induction domains as [|d ds IH]; intros acc; simpl; [lia|].
  etrans; [apply IH|].
  pose proof (size_union_le {[ "https://www." +:+ name +:+ "." +:+ d ]}
                ({[ "https://" +:+ name +:+ "." +:+ d ]} ∪ acc)) as H1.
  pose proof (size_union_le {[ "https://" +:+ name +:+ "." +:+ d ]} acc) as H2.
  rewrite size_singleton in H1, H2. lia.
Qed.

Lemma variations_size (cfg : Base.config) (company_name : string) :
  (size (Base.variations cfg company_name) ≤ 6 * length (Base.email_domains cfg))%nat.
Proof.
  unfold Base.variations, Base.base_names. simpl.
  etrans; [apply variations_inner_size|].
  etrans; [apply Nat.add_le_mono_r, variations_inner_size|].
  etrans; [do 2 apply Nat.add_le_mono_r; apply variations_inner_size|].
  rewrite size_empty. lia.
Qed.

Lemma bind_length_const {A B} (f : A → list B) (l : list A) (k : nat) :
  (∀ x, length (f x) = k) → length (l ≫= f) = (k * length l)%nat.
Proof.
  intros Hf. induction l as [|x l IH]; [simpl; lia|].
  rewrite bind_cons, length_app, Hf, IH. simpl. lia.
Qed.

Lemma candidate_urls_length (cfg : Agent.config) (company_name : string) :
  length (Agent.candidate_urls cfg company_name) = (8 * length (Agent.email_domains cfg))%nat.
Proof.
  unfold Agent.candidate_urls.
  rewrite (bind_length_const _ _ (2 * length (Agent.email_domains cfg))).
  - unfold Agent.name_variations. simpl. lia.
  - intros name. rewrite (bind_length_const _ _ 2); [lia | done].
Qed.

(** X13. The pattern phase of the resolver sends a bounded number of HEAD
    requests: at most six for each configured top-level domain in the base
    variant, at most eight in the AI-augmented variant. *)
Theorem pattern_phase_request_bound (E : env) (company_name : string) (st : state) :
  set_iter_ok E →
  (∀ cfg,
     (length (head_requests (Base.pattern_phase E cfg company_name st).2) ≤
      length (head_requests st) + 6 * length (Base.email_domains cfg))%nat) ∧
  (∀ cfg,
     (length (head_requests (Agent.pattern_phase E cfg company_name st).2) ≤
      length (head_requests st) + 8 * length (Agent.email_domains cfg))%nat).
Proof.
  intros Hiter. split; intros cfg.
  - unfold Base.pattern_phase. etrans; [apply probe_first_sent|].
    rewrite (set_iter_length E Hiter). apply Nat.add_le_mono_l, variations_size.
  - unfold Agent.pattern_phase. etrans; [apply probe_first_sent|].
    by rewrite candidate_urls_length.
Qed.

Lemma pattern_phase_request_bound_witness :
  (length (head_requests (Base.pattern_phase Sample.silent Base.CONFIG "Acme Corp" fresh).2)
   ≤ 0 + 6 * 9)%nat ∧
  (length (head_requests (Agent.pattern_phase Sample.silent Agent.CONFIG "Acme Corp" fresh).2)
   ≤ 0 + 8 * 12)%nat.
Proof.
  destruct (pattern_phase_request_bound Sample.silent "Acme Corp" fresh
              (elements_iter_ok Sample.silent eq_refl)) as [HB HA].
  split; [apply (HB Base.CONFIG) | apply (HA Agent.CONFIG)].
Defined.

(** ** The driver of the AI-augmented variant *)

Section DriverFacts.

Variable E : env.
Variable cfg : Agent.config.
Variable services : gmap string string.
Variable suggest_chain : string → outcome (list string).





End DriverFacts.



(** ** Writing the table *)

Lemma base_result_dom (E : env) n w li c es cp :
  dom (Base.result E n w li c es cp) = list_to_set Base.fieldnames.
Proof.
  unfold Base.result, Base.fieldnames.
  rewrite !dom_insert_L, dom_empty_L. simpl. set_solver.
Qed.

Lemma base_record_is_result (E : env) cfg company_name service_category st r :
  produced (Base.get_company_info E cfg company_name service_category st) = Some r →
  ∃ website linkedin all_emails contact_page,
    r = Base.result E company_name website linkedin service_category
                    all_emails contact_page.
Proof.
  intros [st' Hrun]%produced_inv. unfold Base.get_company_info in Hrun.
  apply bind_inv in Hrun as (found & st1 & _ & H).
  destruct (Py.truthy found); [|by apply ret_inv in H as [[=] _]].
  apply bind_inv in H as (? & ? & _ & H).
  apply bind_inv in H as (? & ? & _ & H).
  apply bind_inv in H as (? & ? & _ & H).
  apply bind_inv in H as (? & ? & _ & H).
  apply ret_inv in H as [[= <-] _]. by eexists _, _, _, _.
Qed.

Lemma rows_fit_true (header : list string) (leads : list (gmap string value)) :
  (∀ lead, lead ∈ leads → dom lead ⊆ list_to_set header) →
  Base.rows_fit header leads = true.
Proof.
  intros Hall. unfold Base.rows_fit. apply forallb_forall.
  intros lead Hin%list_elem_of_In. apply bool_decide_eq_true. auto.
Qed.

(** X15. Every record of the base assembler has exactly the nine columns
    of the header that [save_to_csv] fixes, so the writer never meets an
    unknown column: for a batch of such records [save_to_csv] returns
    [True] when the file can be written, [False] when it cannot, and
    [False] for an empty batch; it never raises. *)
Theorem base_save_to_csv (E : env) cfg (file_sink : string → outcome unit)
    (leads : list (gmap string value)) (filename : string) :
  (∀ r, r ∈ leads →
        ∃ company_name service_category st,
          produced (Base.get_company_info E cfg company_name service_category st) = Some r) →
  (∀ r, r ∈ leads → dom r = list_to_set Base.fieldnames) ∧
  Base.save_to_csv file_sink leads filename =
    Returned (match leads, file_sink filename with
              | _ :: _, Returned _ => true
              | _, _ => false
              end).
Proof.
  intros Hall.
  assert (∀ r, r ∈ leads → dom r = list_to_set Base.fieldnames) as Hdom.
  { intros r (n & c & st & Hr)%Hall.
    apply base_record_is_result in Hr as (w & li & es & cp & ->).
    apply base_result_dom. }
  split; [done|].
  unfold Base.save_to_csv. destruct leads as [|r leads]; [done|].
  rewrite rows_fit_true; [|by intros lead ->%Hdom].
  by destruct (file_sink filename).
Qed.

Lemma base_save_to_csv_witness :
  Base.save_to_csv (λ _, Returned ())
    [ Base.result Sample.two_spellings "Acme" "https://acme.com" None "analytics"
        ["bob@acme.com"; "Bob@acme.com"] None ]
    "ziellabs_leads.csv" = Returned true.
Proof.
  destruct (base_save_to_csv Sample.two_spellings Base.CONFIG (λ _, Returned ())
              [ Base.result Sample.two_spellings "Acme" "https://acme.com" None "analytics"
                  ["bob@acme.com"; "Bob@acme.com"] None ]
              "ziellabs_leads.csv") as [_ Hsave]; [|exact Hsave].
  intros r ->%list_elem_of_singleton.
  exists "Acme", "analytics", fresh. vm_compute. reflexivity.
Defined.

Lemma union_keys_elem (leads : list (gmap string value)) (acc : gset string) (k : string) :
  k ∈ foldl (λ acc lead, dom lead ∪ acc) acc leads ↔
  k ∈ acc ∨ ∃ lead, lead ∈ leads ∧ is_Some (lead !! k).
Proof.
  revert acc. induction leads as [|lead rest IH]; intros acc; simpl.
  - split; [auto | intros [H | (l & Hl & _)]; [done | inversion Hl]].
  - rewrite IH, elem_of_union, elem_of_dom. split.
    + intros [[H | H] | (l & Hl & Hk)]; [right | by left | right].
      * exists lead. split; [left | done].
      * exists l. split; [by right | done].
    + intros [H | (l & Hl & Hk)]; [by left; right|].
      apply elem_of_cons in Hl as [-> | Hl]; [by left; left | right; eauto].
Qed.

(** X16. The header that [save_leads_to_csv] computes is sorted, has no
    repetition and holds exactly the keys that occur in some lead, so
    every row fits it whatever keys the language model added: the function
    returns [True] when the file can be written, [False] when it cannot,
    and [False] for an empty batch; it never raises. *)
Theorem agent_save_leads_to_csv (E : env) (file_sink : outcome unit)
    (leads : list (gmap string value)) :
  set_iter_ok E →
  Sorted String.le (Agent.header E leads) ∧
  NoDup (Agent.header E leads) ∧
  (∀ k, k ∈ Agent.header E leads ↔ ∃ lead, lead ∈ leads ∧ is_Some (lead !! k)) ∧
  Agent.save_leads_to_csv E file_sink leads =
    Returned (match leads, file_sink with
              | _ :: _, Returned _ => true
              | _, _ => false
              end).
Proof.
  intros Hiter.
  assert (∀ k, k ∈ Agent.header E leads ↔ ∃ lead, lead ∈ leads ∧ is_Some (lead !! k))
    as Hkeys.
  { intros k. unfold Agent.header.
    rewrite merge_sort_Permutation, (set_iter_elem E Hiter), union_keys_elem.
    split; [intros [H | H]; [set_solver | done] | auto]. }
  split_and!.
  - apply (Sorted_merge_sort String.le).
  - unfold Agent.header. rewrite merge_sort_Permutation. apply (set_iter_NoDup E Hiter).
  - done.
  - unfold Agent.save_leads_to_csv. destruct leads as [|r leads']; [done|].
    rewrite rows_fit_true; [by destruct file_sink|].
    intros lead Hin k Hk%elem_of_dom. apply elem_of_list_to_set, Hkeys. eauto.
Qed.

Lemma agent_save_leads_to_csv_witness :
  Agent.save_leads_to_csv Sample.own_status (Returned ())
    [ Agent.result Sample.own_status Agent.CONFIG "Acme" "https://acme.com"
        "CRM Strategy" "" ∅ {[ "reasons" := JArr [JStr "growth"] ]} ]
  = Returned true.
Proof.
  destruct (agent_save_leads_to_csv Sample.own_status (Returned ())
              [ Agent.result Sample.own_status Agent.CONFIG "Acme" "https://acme.com"
                  "CRM Strategy" "" ∅ {[ "reasons" := JArr [JStr "growth"] ]} ]
              (elements_iter_ok Sample.own_status eq_refl)) as (_ & _ & _ & Hsave).
  exact Hsave.
Defined.

(** A run of two workers that both want the same URL: the first records
    it, the second meets it in the cache, the first sends its request. *)
Lemma interleaved_probes_distinct_witness :
  NoDup (head_requests
           (head_call Sample.silent "https://acme.com"
              (State {[ "https://acme.com" ]} [])).2).
Proof.
  apply (interleaved_probes_distinct Sample.silent
           [["https://acme.com"]; ["https://acme.com"]] _ [Idle []; Idle []]).
  eapply rtc_l.
  { apply (step_lock Sample.silent fresh [] [Idle ["https://acme.com"]]
             "https://acme.com" []). }
  unfold lock_block. rewrite decide_False by (simpl; set_solver).
  unfold fresh. cbn [processed_urls head_requests app].
  rewrite (right_id_L ∅ (∪)).
  eapply rtc_l.
  { apply (step_lock Sample.silent (State {[ "https://acme.com" ]} [])
             [Requesting "https://acme.com" []] [] "https://acme.com" []). }
  unfold lock_block. rewrite decide_True by (simpl; set_solver).
  cbn [app].
  eapply rtc_l; [|apply rtc_refl].
  apply (step_head Sample.silent (State {[ "https://acme.com" ]} [])
           [] [Idle []] "https://acme.com" []).
Defined.

(** ** The order in which a contact page is looked for *)

Lemma contact_links_elem (E : env) (Hiter : set_iter_ok E)
    (is_contact : link → bool) (base_url : string)
    (absolute : string → string → string) (pg : page) (url : string) :
  url ∈ absolute base_url <$> set_iter E (list_to_set (href <$> filter is_contact (links pg))) →
  ∃ l, l ∈ links pg ∧ is_contact l = true ∧ url = absolute base_url (href l).
Proof.
  intros (h & -> & Hh)%list_elem_of_fmap.
  apply (set_iter_elem E Hiter), elem_of_list_to_set in Hh.
  apply list_elem_of_fmap in Hh as (l & -> & Hl).
  apply list_elem_of_filter in Hl as [Hc Hl].
  exists l. split_and!; [done | by apply Is_true_true | done].
Qed.

(** X17. [find_contact_page] never raises, and it looks at the common
    paths first: a URL that it returns is either one of the common paths
    joined to the base URL, or, when the probes of all common paths gave
    nothing and the home page could be fetched, the absolute form of the
    target of a link of the home page that matches a contact keyword. *)
Theorem contact_page_search_order (E : env) (base_url : string) (st : state) :
  set_iter_ok E →
  (∀ cfg, ∃ o st',
     Base.find_contact_page E cfg base_url st = (Returned o, st') ∧
     ∀ url, o = Some url →
       url ∈ urljoin E base_url <$> Base.common_paths ∨
       ((probe_first E (urljoin E base_url <$> Base.common_paths) st).1 = Returned None ∧
        ∃ pg l, session_get E base_url = Returned pg ∧ l ∈ links pg ∧
                Base.is_contact_link cfg l = true ∧
                url = Base.absolute E base_url (href l))) ∧
  (∀ cfg, ∃ o st',
     Agent.find_contact_page E cfg base_url st = (Returned o, st') ∧
     ∀ url, o = Some url →
       url ∈ urljoin E base_url <$> Agent.common_paths ∨
       ((probe_first E (urljoin E base_url <$> Agent.common_paths) st).1 = Returned None ∧
        ∃ pg l, session_get E base_url = Returned pg ∧ l ∈ links pg ∧
                Agent.is_contact_link cfg l = true ∧
                url = Agent.absolute E base_url (href l))).
Proof.
  intros Hiter. split; intros cfg.
  - destruct (returns_base_contact E cfg base_url st) as (o & st' & Hrun).
    exists o, st'. split; [done|]. intros url ->.
    unfold Base.find_contact_page in Hrun.
    apply bind_inv in Hrun as (found & st1 & Hcommon & Hrest).
    destruct found as [u|].
    + apply ret_inv in Hrest as [[= ->] _]. left.
      by apply hands_back_probe_first in Hcommon as [? _].
    + right. split; [by rewrite Hcommon|].
      apply try_except_inv in Hrest as [Hrest | (e & st2 & _ & [[=] _]%ret_inv)].
      apply bind_inv in Hrest as (pg & st2 & [Hpg ->]%lift_inv & Hrest).
      apply hands_back_probe_first in Hrest as [Hin _].
      apply (contact_links_elem E Hiter) in Hin as (l & Hl & Hc & ->).
      by exists pg, l.
  - destruct (returns_agent_contact E cfg base_url st) as (o & st' & Hrun).
    exists o, st'. split; [done|]. intros url ->.
    unfold Agent.find_contact_page in Hrun.
    apply try_except_inv in Hrun as [Hrun | (e & st2 & _ & [[=] _]%ret_inv)].
    apply bind_inv in Hrun as (found & st1 & Hcommon & Hrest).
    destruct found as [u|].
    + apply ret_inv in Hrest as [[= ->] _]. left.
      by apply hands_back_probe_first in Hcommon as [? _].
    + right. split; [by rewrite Hcommon|].
      apply bind_inv in Hrest as (pg & st2 & [Hpg ->]%lift_inv & Hrest).
      apply hands_back_probe_first in Hrest as [Hin _].
      apply (contact_links_elem E Hiter) in Hin as (l & Hl & Hc & ->).
      by exists pg, l.
Qed.

Lemma contact_page_search_order_witness :
  ∃ o st',
    Base.find_contact_page Sample.two_pages Base.CONFIG "https://acme.com" fresh
      = (Returned o, st') ∧
    o = Some "https://acme.com/contact" ∧
    "https://acme.com/contact" ∈
      urljoin Sample.two_pages "https://acme.com" <$> Base.common_paths.
Proof.
  destruct (contact_page_search_order Sample.two_pages "https://acme.com" fresh
              (elements_iter_ok Sample.two_pages eq_refl)) as [HB _].
  destruct (HB Base.CONFIG) as (o & st' & Hrun & Horder).
  exists o, st'. split; [exact Hrun|].
  assert (o = Some "https://acme.com/contact") as Ho.
  { assert ((Base.find_contact_page Sample.two_pages Base.CONFIG
               "https://acme.com" fresh).1 = Returned (Some "https://acme.com/contact"))
      as Hval by (vm_compute; reflexivity).
    rewrite Hrun in Hval. simpl in Hval. congruence. }
  split; [exact Ho|].
  destruct (Horder _ Ho) as [Hin | [Hnone _]]; [exact Hin|].
  vm_compute in Hnone. discriminate.
Defined.

(** ** What the e-mail pattern matches *)

Lemma append_length (s t : string) :
  String.length (s +:+ t) = (String.length s + String.length t)%nat.
Proof.
  induction s as [|c s IH]; [done|]. rewrite append_cons. simpl. by rewrite IH.
Qed.

Lemma take_str_append (s t : string) : Py.take_str (String.length s) (s +:+ t) = s.
Proof.
  induction s as [|c s IH]; [by destruct t|]. rewrite append_cons. simpl. by rewrite IH.
Qed.

Lemma append_assoc (s t u : string) : (s +:+ t) +:+ u = s +:+ t +:+ u.
Proof.
  induction s as [|c s IH]; [done|]. by rewrite !append_cons, IH.
Qed.

(** What a greedy repetition has taken when the whole match succeeds. *)
Lemma rep_inv (p : ascii → bool) (lo : nat) (hi : option nat)
    (k : option ascii → string → option string) (s : string) :
  ∀ n prev rest,
    Py.rep p lo hi k n prev s = Some rest →
    ∃ taken s2 prev',
      s = taken +:+ s2 ∧ all_chars p taken = true ∧
      (lo ≤ n + String.length taken)%nat ∧
      (∀ h, hi = Some h → (n ≤ h)%nat → (n + String.length taken ≤ h)%nat) ∧
      k prev' s2 = Some rest.
Proof.
  induction s as [|c s IH]; intros n prev rest; simpl.
  - destruct (Nat.leb lo n) eqn:Hlo; [|done]. intros Hk.
    apply Nat.leb_le in Hlo.
    exists "", "", prev. split_and!; [done | done | simpl; lia | intros; simpl; lia | done].
  - assert ((if Nat.leb lo n then k prev (String c s) else None) = Some rest →
            ∃ taken s2 prev',
              String c s = taken +:+ s2 ∧ all_chars p taken = true ∧
              (lo ≤ n + String.length taken)%nat ∧
              (∀ h, hi = Some h → (n ≤ h)%nat → (n + String.length taken ≤ h)%nat) ∧
              k prev' s2 = Some rest) as Hstop.
    { destruct (Nat.leb lo n) eqn:Hlo; [|done]. intros Hk.
      apply Nat.leb_le in Hlo.
      exists "", (String c s), prev.
      split_and!; [done | done | simpl; lia | intros; simpl; lia | done]. }
    destruct (p c && match hi with Some h => Nat.ltb n h | None => true end) eqn:Htake;
      [|exact Hstop].
    destruct (Py.rep p lo hi k (S n) (Some c) s) as [r|] eqn:Hrec; [|exact Hstop].
    intros [= ->].
    apply andb_true_iff in Htake as [Hpc Hroom].
    destruct (IH _ _ _ Hrec) as (taken & s2 & prev' & -> & Hall & Hlo & Hhi & Hk).
    exists (String c taken), s2, prev'.
    split_and!; [done | simpl; by rewrite Hpc | simpl; lia | | done].
    intros h -> _. apply Nat.ltb_lt in Hroom. specialize (Hhi h eq_refl). simpl. lia.
Qed.

Lemma all_one_of_single (ch : string) (s : string) (c : ascii) :
  ch = String c "" →
  all_chars (one_of ch) s = true → String.length s = 1%nat → s = String c "".
Proof.
  intros -> Hall Hlen. destruct s as [|a [|b s]]; simpl in Hlen; try lia.
  simpl in Hall. unfold one_of in Hall. simpl in Hall.
  rewrite orb_false_r, andb_true_r in Hall. by apply Ascii.eqb_eq in Hall as ->.
Qed.

Lemma match_here_email (hi : option nat) (prev : option ascii) (s rest : string) :
  Py.match_here (email_pattern hi) prev s = Some rest →
  ∃ m, s = m +:+ rest ∧ email_shape hi m.
Proof.
  unfold email_pattern. cbn [Py.match_here].
  destruct (Py.boundary prev s); [|done].
  intros (l & s1 & p1 & -> & Hl & Hl1 & _ & H)%rep_inv.
  apply rep_inv in H as (a & s2 & p2 & -> & Ha & Ha1 & Ha2 & H).
  apply rep_inv in H as (d & s3 & p3 & -> & Hd & Hd1 & _ & H).
  apply rep_inv in H as (dt & s4 & p4 & -> & Hdt & Hdt1 & Hdt2 & H).
  apply rep_inv in H as (t & s5 & p5 & -> & Ht & Ht1 & Ht2 & H).
  cbn [Py.match_here] in H. destruct (Py.boundary p5 s5); [|done].
  injection H as <-.
  specialize (Ha2 1%nat eq_refl ltac:(lia)). specialize (Hdt2 1%nat eq_refl ltac:(lia)).
  assert (a = "@") as -> by (apply (all_one_of_single "@"); [done | done | simpl in *; lia]).
  assert (dt = ".") as -> by (apply (all_one_of_single "."); [done | done | simpl in *; lia]).
  exists (l +:+ "@" +:+ d +:+ "." +:+ t). split.
  - by rewrite !append_assoc.
  - exists l, d, t. split_and!; try done.
    + intros ->. simpl in Hl1. lia.
    + intros ->. simpl in Hd1. lia.
    + intros h Hh. specialize (Ht2 h Hh). simpl in Ht2. lia.
Qed.

Lemma findall_from_shape (hi : option nat) (fuel : nat) :
  ∀ prev s m, m ∈ Py.findall_from (email_pattern hi) fuel prev s → email_shape hi m.
Proof.
  induction fuel as [|fuel IH]; intros prev s m; [by intros H; inversion H|].
  cbn [Py.findall_from].
  assert (m ∈ match s with
              | EmptyString => []
              | String c s' => Py.findall_from (email_pattern hi) fuel (Some c) s'
              end → email_shape hi m) as Hstep.
  { destruct s as [|c s']; [by intros H; inversion H | apply IH]. }
  destruct (Py.match_here (email_pattern hi) prev s) as [rest|] eqn:Hmatch; [|exact Hstep].
  destruct (match_here_email hi prev s rest Hmatch) as (m0 & -> & Hshape).
  rewrite append_length, Nat.add_sub, take_str_append.
  destruct (String.length m0);
    (intros [-> | Hm]%elem_of_cons; [exact Hshape | eauto]).
Qed.

(** X18. Every string that the scan of a text with the e-mail pattern
    finds is a non-empty local part, an at sign, a non-empty domain part,
    a dot and a last part of two or more letters or bars, at most seven in
    the AI-augmented variant; the parts contain only the characters of
    their class in the pattern. *)
Theorem found_addresses_have_email_shape (text m : string) :
  (m ∈ Py.findall (Base.email_regex Base.CONFIG) text → email_shape None m) ∧
  (m ∈ Py.findall Agent.email_regex text → email_shape (Some 7) m).
Proof. split; apply findall_from_shape. Qed.

Lemma found_addresses_have_email_shape_witness :
  email_shape None "press@acme.com" ∧ email_shape (Some 7) "press@acme.com".
Proof.
  destruct (found_addresses_have_email_shape
              "Reach us at press@acme.com or noreply@acme.com" "press@acme.com") as [HB HA].
  split; [apply HB | apply HA]; apply (bool_decide_unpack _); vm_compute; exact I.
Defined.

(** ** Count and status on the sample sites *)

Lemma base_record_count_and_status_witness :
  ∃ r l,
    produced (Base.get_company_info Sample.two_pages Base.CONFIG
                "Acme" "analytics" fresh) = Some r ∧
    emails_of r = Some l ∧
    r !! "email_count" = Some (VInt (Z.of_nat (length l))) ∧
    r !! "status" =
      Some (VStr (match l with [] => "No emails found" | _ => "Success" end)).
Proof.
  assert (is_Some (produced (Base.get_company_info Sample.two_pages Base.CONFIG
                               "Acme" "analytics" fresh))) as [r Hrun]
    by (apply (bool_decide_unpack _); vm_compute; exact I).
  destruct (base_record_count_and_status Sample.two_pages Base.CONFIG
              "Acme" "analytics" fresh r
              (elements_iter_ok Sample.two_pages eq_refl) Hrun)
    as (l & Hl & Hcount & Hstatus).
  exists r, l. split; [exact Hrun | split; [exact Hl | split; [exact Hcount | exact Hstatus]]].
Defined.

Lemma agent_record_count_and_status_witness :
  ∃ r (l : list string) (emails : gset string),
    produced (Agent.get_company_info Sample.api_and_page Agent.CONFIG Agent.SERVICES
                "Acme" "CRM Strategy" fresh) = Some r ∧
    emails_of r = Some l ∧
    (Z.of_nat (length l) ≤ 5)%Z ∧
    r !! "email_count" = Some (VInt (Z.of_nat (size emails))) ∧
    r !! "status" = Some (VStr (if bool_decide (emails = ∅) then "Partial" else "Success")).
Proof.
  assert (is_Some (produced (Agent.get_company_info Sample.api_and_page Agent.CONFIG
                               Agent.SERVICES "Acme" "CRM Strategy" fresh))) as [r Hrun]
    by (apply (bool_decide_unpack _); vm_compute; exact I).
  assert (∀ ins, Agent.ai_enhance_company_info Sample.api_and_page Agent.SERVICES
                   "Acme" "CRM Strategy" = Returned ins →
                 ins !! "emails" = None ∧ ins !! "email_count" = None ∧
                 ins !! "status" = None) as Hkeys.
  { intros ins Hins. vm_compute in Hins. injection Hins as <-. by split_and!. }
  destruct (agent_record_count_and_status Sample.api_and_page Agent.CONFIG Agent.SERVICES
              "Acme" "CRM Strategy" fresh r
              (elements_iter_ok Sample.api_and_page eq_refl)
              ltac:(simpl; lia) Hrun Hkeys)
    as (l & emails & Hl & _ & Hlen & Hcount & _ & Hstatus).
  exists r, l, emails.
  split; [exact Hrun | split; [exact Hl | split; [exact Hlen | split; [exact Hcount | exact Hstatus]]]].
Defined.
